(** * feature_engine: IncreasingWidthDiscretiser and StringSimilarityEncoder

    A shallow embedding of
      - feature_engine/discretisation/increasing_width.py
      - feature_engine/encoding/similarity_encoder.py
    and the properties their specification states about them.

    Conventions.
      - Python exceptions are the [Raise] branch of [result].
      - A floating-point number is an extended real or NaN ([float]). The
        loop of the discretiser is embedded twice: over any arithmetic
        ([fit_var_in]: how an operation rounds, overflows or wraps around is
        left to the instance) and over exact real arithmetic ([fit_var]).
      - pandas' sort of the value counts is left open ([sort_values]): any
        rearrangement in descending order of count.
      - Similarity scores are exact rationals in lowest terms ([Q]).
      - A missing cell (NaN / None) of a column is [None]. *)

From Stdlib Require Import Reals Lra Lia ZArith QArith Ascii String Sorted.
From stdpp Require Import base list strings gmap.

(** ** Exceptions *)

Inductive exn :=
  | ValueError
  | TypeError
  | KeyError
  | IndexError
  | ZeroDivisionError
  | NotFittedError
  | NotImplementedError.

Inductive result (A : Type) :=
  | Ok (a : A)
  | Raise (e : exn).
Arguments Ok {A} a.
Arguments Raise {A} e.

#[global] Instance result_ret : MRet result := fun A a => Ok a.

#[global] Instance result_bind : MBind result := fun A B k r =>
  match r with
  | Ok a => k a
  | Raise e => Raise e
  end.

(** ** Sorting

    Insertion sort by a boolean order. It is stable: of two elements that
    [leb] ranks equal, the one that came first in the input comes first in
    the output. *)

Section Sort.
Context {A : Type} (leb : A -> A -> bool).

Fixpoint insert_sorted (x : A) (l : list A) : list A :=
  match l with
  | [] => [x]
  | y :: t => if leb x y then x :: l else y :: insert_sorted x t
  end.

Fixpoint sort (l : list A) : list A :=
  match l with
  | [] => []
  | x :: t => insert_sorted x (sort t)
  end.

(** Every element is ranked no later than all those after it. *)
Fixpoint ranked (l : list A) : Prop :=
  match l with
  | [] => True
  | x :: t => Forall (fun y => leb x y = true) t /\ ranked t
  end.

(** [a] is ranked no later than [b], and comes before it by [R] (the order
    of the input) if [b] is ranked no later than [a] either. *)
Definition stable_before (R : A -> A -> Prop) (a b : A) : Prop :=
  leb a b = true /\ (leb b a = true -> R a b).
End Sort.

(** ** Python values, as far as the constructors inspect them

    [PyOther] is any other object (a list, a dict, ...), of which only the
    truth value matters here. *)

Inductive pyval :=
  | PyNone
  | PyBool (b : bool)
  | PyInt (z : Z)
  | PyFloat (q : Q)
  | PyStr (s : string)
  | PyOther (truth : bool).

(** [isinstance(v, int)]: [bool] is a subclass of [int]. *)
Definition isinstance_int (v : pyval) : bool :=
  match v with
  | PyInt _ | PyBool _ => true
  | _ => false
  end.

(** Truth value of [v] in a condition. *)
Definition truthy (v : pyval) : bool :=
  match v with
  | PyNone => false
  | PyBool b => b
  | PyInt z => negb (z =? 0)%Z
  | PyFloat q => negb (Qnum q =? 0)%Z
  | PyStr s => negb (String.eqb s "")
  | PyOther b => b
  end.

(** [v in ("error", "impute", "ignore")] *)
Definition is_missing_policy (v : pyval) : bool :=
  match v with
  | PyStr s => bool_decide (s ∈ ["error"; "impute"; "ignore"])
  | _ => false
  end.

(** ** increasing_width.py *)

Module Discretiser.

Local Open Scope R_scope.

(** A numpy float64, idealised. *)
Inductive float :=
  | NegInf
  | Fin (x : R)
  | PosInf
  | NaN.

Definition is_nan (x : float) : bool :=
  match x with NaN => true | _ => false end.

(** [x + y] and [x - y] on float64. *)
Definition fadd (x y : float) : float :=
  match x, y with
  | NaN, _ | _, NaN => NaN
  | Fin a, Fin b => Fin (a + b)
  | PosInf, NegInf | NegInf, PosInf => NaN
  | PosInf, _ | _, PosInf => PosInf
  | NegInf, _ | _, NegInf => NegInf
  end.

Definition fneg (x : float) : float :=
  match x with
  | NegInf => PosInf
  | PosInf => NegInf
  | Fin a => Fin (- a)
  | NaN => NaN
  end.

Definition fsub (x y : float) : float := fadd x (fneg y).

(** [1.0 / n] for a Python int [n]. *)
Definition float_div_one (n : Z) : result float :=
  if Z.eq_dec n 0%Z then Raise ZeroDivisionError else Ok (Fin (1 / IZR n)).

(** Is the real [b] an integer, and is it an odd one. *)
Definition is_integer (b : R) : bool :=
  if Req_dec_T b (IZR (Int_part b)) then true else false.

Definition is_odd_integer (b : R) : bool :=
  is_integer b && Z.odd (Int_part b).

Definition Rabs_cmp_one (a : R) : comparison :=
  if Rlt_dec (Rabs a) 1 then Lt
  else if Req_dec_T (Rabs a) 1 then Eq else Gt.

(** [np.power(x, y)] on float64 (the C library's pow):
    [x ** 0 = 1] and [1 ** y = 1] for every [x], [y], NaN included;
    a negative base with a fractional exponent is NaN;
    [0 ** y] is [0] for [y > 0] and [+inf] for [y < 0]. *)
Definition np_power (x y : float) : float :=
  match x, y with
  | _, Fin b =>
      if Req_dec_T b 0 then Fin 1 else
      match x with
      | NaN => NaN
      | Fin a =>
          if Rlt_dec 0 a then Fin (Rpower a b)
          else if Req_dec_T a 0 then (if Rlt_dec 0 b then Fin 0 else PosInf)
          else if is_integer b then Fin (powerRZ a (Int_part b))
          else NaN
      | PosInf => if Rlt_dec 0 b then PosInf else Fin 0
      | NegInf =>
          if Rlt_dec 0 b
          then (if is_odd_integer b then NegInf else PosInf)
          else Fin 0
      end
  | Fin a, PosInf =>
      match Rabs_cmp_one a with Lt => Fin 0 | Eq => Fin 1 | Gt => PosInf end
  | Fin a, NegInf =>
      match Rabs_cmp_one a with Lt => PosInf | Eq => Fin 1 | Gt => Fin 0 end
  | (PosInf | NegInf), PosInf => PosInf
  | (PosInf | NegInf), NegInf => Fin 0
  | NaN, (PosInf | NegInf) => NaN
  | Fin a, NaN => if Req_dec_T a 1 then Fin 1 else NaN
  | _, NaN => NaN
  end.

(** The order [np.sort] sorts by: the usual one, NaN after everything. *)
Definition float_leb (x y : float) : bool :=
  match x, y with
  | _, NaN => true
  | NaN, _ => false
  | NegInf, _ => true
  | _, NegInf => false
  | _, PosInf => true
  | PosInf, _ => false
  | Fin a, Fin b => if Rle_dec a b then true else false
  end.

(** IEEE [x < y]: false as soon as a NaN is involved. *)
Definition float_lt (x y : float) : Prop :=
  match x, y with
  | NaN, _ | _, NaN => False
  | _, NegInf => False
  | NegInf, _ => True
  | PosInf, _ => False
  | _, PosInf => True
  | Fin a, Fin b => a < b
  end.

(** IEEE [x <= y]. *)
Definition float_le (x y : float) : Prop :=
  match x, y with
  | NaN, _ | _, NaN => False
  | NegInf, _ => True
  | _, NegInf => False
  | _, PosInf => True
  | PosInf, _ => False
  | Fin a, Fin b => a <= b
  end.

(** [np.sort]: ascending, NaN last. *)
Definition np_sort : list float -> list float := sort float_leb.

(** [np.arange(1, n + 1)] *)
Definition np_arange_from_one (n : Z) : list Z :=
  Z.of_nat <$> seq 1 (Z.to_nat n).

(** [X[var].min()] and [X[var].max()] of a column without missing values;
    the column holds the finite values that passed the input check of
    [BaseDiscretiser.fit]. An empty Series has NaN as its minimum. *)
Definition series_min (col : list R) : float :=
  match col with
  | [] => NaN
  | x :: t => Fin (foldl Rmin x t)
  end.

Definition series_max (col : list R) : float :=
  match col with
  | [] => NaN
  | x :: t => Fin (foldl Rmax x t)
  end.

(** [l[i] = v] on a Python list, for [i >= 0]. *)
Definition list_setitem {A} (l : list A) (i : nat) (v : A) : result (list A) :=
  if decide (i < length l)%nat then Ok (<[i := v]> l) else Raise IndexError.

(** [l[len(l) - 1] = v]: the index [-1] of an empty list is out of range. *)
Definition list_set_last {A} (l : list A) (v : A) : result (list A) :=
  match l with
  | [] => Raise IndexError
  | _ => list_setitem l (length l - 1) v
  end.

(** The body of the loop of [IncreasingWidthDiscretiser.fit] for one
    variable, the value stored in [binner_dict_[var]], on a column of real
    numbers in exact arithmetic: the instance [real_arithmetic] of
    [fit_var_in] below. *)
Definition fit_var (col : list R) (bins : Z) : result (list float) :=
  let min_ := series_min col in
  let max_ := series_max col in
  e ← float_div_one bins;
  let increment := np_power (fsub max_ min_) e in
  let powers := (fun k => np_power increment (Fin (IZR k))) <$> np_arange_from_one bins in
  let bins0 := min_ :: (fadd min_ <$> powers) in
  let bins1 := np_sort bins0 in
  bins2 ← list_setitem bins1 0 NegInf;
  list_set_last bins2 PosInf.

(** [IncreasingWidthDiscretiser.fit]: [binner_dict_] is rebuilt from the
    empty dict, one entry per variable of [variables_]; a variable that is
    not a column of [X] is a KeyError. *)
Fixpoint fit_loop (X : gmap string (list R)) (bins : Z) (vars : list string)
    (binner_dict : gmap string (list float)) : result (gmap string (list float)) :=
  match vars with
  | [] => Ok binner_dict
  | var :: rest =>
      match X !! var with
      | None => Raise KeyError
      | Some col =>
          b ← fit_var col bins;
          fit_loop X bins rest (<[var := b]> binner_dict)
      end
  end.

Definition fit (X : gmap string (list R)) (bins : Z) (variables_ : list string)
    : result (gmap string (list float)) :=
  fit_loop X bins variables_ ∅.

(** *** The loop over any arithmetic

    What numpy computes depends on the dtype of the column and on the
    machine arithmetic: a float64 operation rounds and can overflow to an
    infinity, and [max_ - min_] on an integer column wraps around. An
    [Arithmetic] leaves every numeric operation of the loop body open; the
    values that reach the float64 array are [float]s, and the rest of the
    body ([np.r_], [np.sort], [list], the two assignments) is as in the
    source. *)
Class Arithmetic := {
  (** a column [X[var]] and a scalar of its dtype *)
  series : Type;
  scalar : Type;
  (** [X[var].min()] and [X[var].max()] *)
  arith_min : series -> scalar;
  arith_max : series -> scalar;
  (** [max_ - min_], in the dtype of the column *)
  arith_sub : scalar -> scalar -> scalar;
  (** [1.0 / bins] for a Python int [bins] other than 0 *)
  arith_inv : Z -> float;
  (** [np.power(max_ - min_, e)] *)
  arith_root : scalar -> float -> float;
  (** [np.power(increment, k)] for an entry [k] of [np.arange(1, bins + 1)] *)
  arith_pow : float -> Z -> float;
  (** [min_ + p] for an entry [p] of the array of powers *)
  arith_add : scalar -> float -> float;
  (** [min_] as the first entry of the float64 array [np.r_[min_, ...]] *)
  arith_float : scalar -> float;
}.

Definition fit_var_in `{Arithmetic} (col : series) (bins : Z)
    : result (list float) :=
  let min_ := arith_min col in
  let max_ := arith_max col in
  e ← (if Z.eq_dec bins 0%Z then Raise ZeroDivisionError
       else Ok (arith_inv bins));
  let increment := arith_root (arith_sub max_ min_) e in
  let powers := arith_pow increment <$> np_arange_from_one bins in
  let bins0 := arith_float min_ :: (arith_add min_ <$> powers) in
  let bins1 := np_sort bins0 in
  bins2 ← list_setitem bins1 0 NegInf;
  list_set_last bins2 PosInf.

Fixpoint fit_loop_in `{Arithmetic} (X : gmap string series) (bins : Z)
    (vars : list string) (binner_dict : gmap string (list float))
    : result (gmap string (list float)) :=
  match vars with
  | [] => Ok binner_dict
  | var :: rest =>
      match X !! var with
      | None => Raise KeyError
      | Some col =>
          b ← fit_var_in col bins;
          fit_loop_in X bins rest (<[var := b]> binner_dict)
      end
  end.

Definition fit_in `{Arithmetic} (X : gmap string series) (bins : Z)
    (variables_ : list string) : result (gmap string (list float)) :=
  fit_loop_in X bins variables_ ∅.

(** Exact arithmetic on a column of real numbers. *)
Definition real_arithmetic : Arithmetic := {|
  series := list R;
  scalar := float;
  arith_min := series_min;
  arith_max := series_max;
  arith_sub := fsub;
  arith_inv := fun n => Fin (1 / IZR n);
  arith_root := np_power;
  arith_pow := fun x k => np_power x (Fin (IZR k));
  arith_add := fadd;
  arith_float := fun x => x;
|}.

(** The entries of a list that are not NaN, in their order. *)
Definition not_nan (l : list float) : list float :=
  filter (fun x => is_nan x = false) l.

(** [IncreasingWidthDiscretiser.__init__]. [super_init] is the outcome of
    [super().__init__(return_object, return_boundaries)] and
    [checked_variables] that of [_check_init_parameter_variables(variables)],
    both defined outside these sources. *)
Record params := Params {
  p_bins : pyval;
  p_variables : pyval;
}.

Definition init (bins : pyval) (super_init : result ())
    (checked_variables : result pyval) : result params :=
  if negb (isinstance_int bins) then Raise ValueError
  else
    _ ← super_init;
    variables ← checked_variables;
    Ok (Params bins variables).

(** The sequence is strictly increasing / non-decreasing. *)
Fixpoint strictly_increasing (l : list float) : Prop :=
  match l with
  | x :: (y :: _) as t => float_lt x y /\ strictly_increasing t
  | _ => True
  end.

Fixpoint non_decreasing (l : list float) : Prop :=
  match l with
  | x :: (y :: _) as t => float_le x y /\ non_decreasing t
  | _ => True
  end.

(** *** The boundary construction as the specification words it

    On real numbers: [increment = (hi - lo) ** (1 / bins)]; the sequence is
    [lo] prepended to [lo + increment ** e] for [e = 1..bins], sorted
    ascending; then the first element is overwritten with -inf and the last
    with +inf. *)

Definition Rleb (a b : R) : bool := if Rle_dec a b then true else false.



Definition overwrite_first (v : float) (l : list float) : list float :=
  match l with
  | [] => []
  | _ :: t => v :: t
  end.

Definition overwrite_last (v : float) (l : list float) : list float :=
  match l with
  | [] => []
  | _ => removelast l ++ [v]
  end.



End Discretiser.

(** ** similarity_encoder.py *)

Module Encoder.

(** *** difflib.SequenceMatcher.quick_ratio

    Python's standard library, transcribed from difflib.py: the two strings
    are compared as multisets of characters. *)

(** [fullbcount]: how often each character occurs in [b]. *)
Definition fullbcount (b : list ascii) : gmap ascii Z :=
  foldl (fun m elt => <[elt := (default 0 (m !! elt) + 1)%Z]> m) ∅ b.

(** [avail[elt] if availhas(elt) else fullbcount.get(elt, 0)] *)
Definition available (fb avail : gmap ascii Z) (elt : ascii) : Z :=
  match avail !! elt with
  | Some n => n
  | None => default 0%Z (fb !! elt)
  end.

(** One turn of the loop over [a]: [avail[elt]] is the number of times [elt]
    occurs in [b] less the number of times it was seen in [a] so far. *)
Definition quick_ratio_step (fb : gmap ascii Z) (st : gmap ascii Z * Z)
    (elt : ascii) : gmap ascii Z * Z :=
  let '(avail, matches) := st in
  let numb := available fb avail elt in
  (<[elt := (numb - 1)%Z]> avail, if (0 <? numb)%Z then (matches + 1)%Z else matches).

Definition quick_ratio_matches (a b : list ascii) : Z :=
  (foldl (quick_ratio_step (fullbcount b)) (∅, 0%Z) a).2.

(** [_calculate_ratio(matches, length)]: [2.0 * matches / length], and [1.0]
    when [length] is 0. *)
Definition calculate_ratio (matches : Z) (length : nat) : Q :=
  match length with
  | O => 1%Q
  | S _ => Qred (2 * matches # Pos.of_nat length)
  end.

Definition quick_ratio (a b : list ascii) : Q :=
  calculate_ratio (quick_ratio_matches a b) (length a + length b).

(** [_gpm_fast(x1, x2)]; [str(x)] of a string is the string. *)
Definition _gpm_fast (x1 x2 : string) : Q :=
  quick_ratio (list_ascii_of_string x1) (list_ascii_of_string x2).

(** The array [_gpm_fast_vec(x, categories)] returns: [np.vectorize]
    broadcasts the scalar [x] against the list. The call itself, which can
    raise, is [_gpm_fast_vec_call] below. *)
Definition _gpm_fast_vec (x : string) (categories : list string) : list Q :=
  _gpm_fast x <$> categories.

(** *** Dataframes

    An ordered list of named columns. An object column holds strings, a
    numeric one numbers; [None] is a missing cell. The encoder reads object
    columns and writes numeric ones. *)

Inductive column :=
  | ObjCol (cells : list (option string))
  | NumCol (cells : list (option Q)).

Abbreviation DataFrame := (list (string * column)).

Definition columns (X : DataFrame) : list string := X.*1.

(** [X[var]] *)
Fixpoint df_get (X : DataFrame) (var : string) : result column :=
  match X with
  | [] => Raise KeyError
  | (name, c) :: rest => if decide (name = var) then Ok c else df_get rest var
  end.

(** [X[var]] for a categorical variable. *)
Definition df_get_obj (X : DataFrame) (var : string) : result (list (option string)) :=
  c ← df_get X var;
  match c with
  | ObjCol cells => Ok cells
  | NumCol _ => Raise TypeError
  end.

(** [X[name] = c]: an existing column is overwritten where it stands, a new
    one is appended. *)
Fixpoint df_set (X : DataFrame) (name : string) (c : column) : DataFrame :=
  match X with
  | [] => [(name, c)]
  | (n, c0) :: rest =>
      if decide (n = name) then (n, c) :: rest else (n, c0) :: df_set rest name c
  end.

(** [X.drop(names, axis=1)] *)
Definition df_drop (X : DataFrame) (names : list string) : result DataFrame :=
  if decide (names ⊆ columns X)
  then Ok (filter (fun nc => nc.1 ∉ names) X)
  else Raise KeyError.

(** *** pandas Series operations *)

Definition isna {A} (cell : option A) : bool :=
  match cell with None => true | Some _ => false end.

(** [s.fillna(v)] *)
Definition fillna {A} (v : A) (s : list (option A)) : list (option A) :=
  (fun cell => Some (default v cell)) <$> s.

(** [s.dropna()] *)
Definition dropna {A} (s : list (option A)) : list A := omap (fun cell => cell) s.

(** [s.unique()]: the distinct values in order of first appearance. *)
Fixpoint unique `{EqDecision A} (s : list A) : list A :=
  match s with
  | [] => []
  | x :: t => x :: filter (fun y => y <> x) (unique t)
  end.

(** Number of occurrences of [x] in [s]. *)
Definition count `{EqDecision A} (x : A) (s : list A) : nat :=
  length (filter (fun y => y = x) s).

(** The sort [value_counts] ends with, [sort_values(ascending=False)] on
    the counts. pandas is not part of these sources and its default sorting
    algorithm (numpy's quicksort) is not stable, so the sort is left open:
    [sort_values] is any function that [sorts_by_count], that is, returns a
    rearrangement of its argument in descending order of count. The order
    among equal counts is whatever the function makes it. *)
Class ValueSort := sort_values : list (string * nat) -> list (string * nat).

Definition sorts_by_count `{ValueSort} : Prop :=
  forall l, sort_values l ≡ₚ l /\
            StronglySorted (fun x y => (y.2 <= x.2)%nat) (sort_values l).

(** Two such sorts: a stable one, which keeps values of equal count in the
    order in which they are first seen, and one that sorts in ascending
    order and reverses, which puts them in the opposite order. *)
Definition first_seen_sort : ValueSort :=
  sort (fun x y => (y.2 <=? x.2)%nat).


(** [s.value_counts()] (with [dropna=True], the default): the distinct
    non-missing values, in first-seen order, with their counts, then sorted
    by [sort_values]. *)
Definition value_counts `{ValueSort} (s : list (option string))
    : list (string * nat) :=
  let values := dropna s in
  sort_values ((fun v => (v, count v values)) <$> unique values).

(** [s.head(n)], that is [s.iloc[:n]]: everything for [None], the first [n]
    rows for [n >= 0], all but the last [-n] rows for [n < 0]. *)
Definition head {A} (n : option Z) (s : list A) : list A :=
  match n with
  | None => s
  | Some n =>
      if (0 <=? n)%Z then take (Z.to_nat n) s
      else take (length s - Z.to_nat (- n)) s
  end.

(** [s.index.tolist()] of a [value_counts] result. *)
Definition index_tolist {A B} (s : list (A * B)) : list A := s.*1.

(** *** The encoder *)

Inductive missing_policy := error | impute | ignore.

#[global] Instance missing_policy_eq_dec : EqDecision missing_policy.
Proof. solve_decision. Defined.

(** [StringSimilarityEncoder.__init__]; [super_init] is the outcome of
    [super().__init__(variables, ignore_format)], defined outside these
    sources. *)
Record params := Params {
  p_top_categories : pyval;
  p_handle_missing : pyval;
}.

Definition init (top_categories handle_missing : pyval) (super_init : result ())
    : result params :=
  if truthy top_categories && negb (isinstance_int top_categories)
  then Raise ValueError
  else if negb (is_missing_policy handle_missing) then Raise ValueError
  else
    _ ← super_init;
    Ok (Params top_categories handle_missing).

(** The encoder object after construction with valid parameters:
    [encoder_dict_] is [None] until [fit] has run. *)
Record encoder := Encoder {
  top_categories : option Z;
  handle_missing : missing_policy;
  variables_ : list string;
  encoder_dict_ : option (gmap string (list string));
}.

(** Modelled from the spec: [_check_contains_na(X, variables)] of
    feature_engine.dataframe_checks is not part of these sources. It fails
    with a data-validation error (a ValueError) if any entry of a selected
    column is missing, and returns nothing otherwise. *)
Definition column_has_na (c : column) : bool :=
  match c with
  | ObjCol cells => existsb isna cells
  | NumCol cells => existsb isna cells
  end.

Definition _check_contains_na (X : DataFrame) (variables : list string) : result () :=
  cols ← mapM (df_get X) variables;
  if existsb column_has_na cols then Raise ValueError else Ok ().

(** [s.value_counts().head(top_categories).index.tolist()] *)
Definition learn `{ValueSort} (top : option Z) (s : list (option string))
    : list string :=
  index_tolist (head top (value_counts s)).

(** [for var in self.variables_: self.encoder_dict_[var] = f(X[var])] *)
Fixpoint fit_loop (f : list (option string) -> list string) (X : DataFrame)
    (vars : list string) (d : gmap string (list string))
    : result (gmap string (list string)) :=
  match vars with
  | [] => Ok d
  | var :: rest =>
      col ← df_get_obj X var;
      fit_loop f X rest (<[var := f col]> d)
  end.

(** [StringSimilarityEncoder.fit], from the point where [variables_] is
    known: [check_X], [_check_or_select_variables], [_get_feature_names_in]
    and [_check_encoding_dictionary] are defined outside these sources and
    [X] is an input that passes them. *)
Definition fit `{ValueSort} (enc : encoder) (X : DataFrame) : result encoder :=
  let top := top_categories enc in
  let vars := variables_ enc in
  d ← match handle_missing enc with
      | error =>
          _ ← _check_contains_na X vars;
          fit_loop (fun col => learn top col) X vars ∅
      | impute =>
          fit_loop (fun col => learn top (fillna ""%string col)) X vars ∅
      | ignore =>
          fit_loop (fun col => learn top col) X vars ∅
      end;
  Ok (Encoder top (handle_missing enc) vars (Some d)).

(** A row of similarity scores; [None] is NaN. *)
Abbreviation row := (list (option Q)).
Abbreviation matrix := (list (list (option Q))).

Definition nan_row (n : nat) : row := replicate n None.

(** A call [_gpm_fast_vec(x, categories)]: [np.vectorize] refuses an input
    of size 0 with a ValueError and otherwise returns the array
    [_gpm_fast_vec x categories]. *)
Definition _gpm_fast_vec_call (x : string) (categories : list string)
    : result (list Q) :=
  match categories with
  | [] => Raise ValueError
  | _ => Ok (_gpm_fast_vec x categories)
  end.

(** One turn of the dict comprehension
    [{x: _gpm_fast_vec(x, vocab) for x in new_categories}]. *)
Definition dict_comprehension_step (vocab : list string)
    (acc : result (gmap (option string) row)) (x : string)
    : result (gmap (option string) row) :=
  d ← acc;
  scores ← _gpm_fast_vec_call x vocab;
  Ok (<[Some x := (Some <$> scores : row)]> d).

(** The comprehension, followed by
    [column_encoder_dict[np.nan] = [np.nan] * len(vocab)]; the key [None]
    is [np.nan]. *)
Definition column_encoder_dict (new_categories vocab : list string)
    : result (gmap (option string) row) :=
  d ← foldl (dict_comprehension_step vocab) (Ok ∅) new_categories;
  Ok (<[None := nan_row (length vocab)]> d).

(** [s.map(d).values]: a cell that is not a key becomes a scalar NaN,
    [None] here. *)
Definition series_map (d : gmap (option string) row) (s : list (option string))
    : list (option row) :=
  (fun cell => d !! cell) <$> s.

(** [np.vstack]: every element becomes a row (a scalar a row of width 1);
    no element at all, or rows of different widths, is a ValueError. *)
Definition np_vstack (rows : list (option row)) : result matrix :=
  let rows' := (fun r => default [None] r) <$> rows in
  match rows' with
  | [] => Raise ValueError
  | r :: rest =>
      if forallb (fun r' => length r' =? length r)%nat rest
      then Ok rows' else Raise ValueError
  end.

(** [encoded[mask, :] = np.nan] *)
Definition set_rows_nan (mask : list bool) (M : matrix) : matrix :=
  zip_with (fun (m : bool) r => if m then nan_row (length r) else r) mask M.

(** The similarity block of one variable: the body of the loop of
    [transform] after the imputation of [X[var]]. *)
Definition encode_column (hm : missing_policy) (vocab : list string)
    (col : list (option string)) : result matrix :=
  let new_categories := unique (dropna col) in
  d ← column_encoder_dict new_categories vocab;
  encoded ← np_vstack (series_map d col);
  Ok (if decide (hm = ignore) then set_rows_nan (isna <$> col) encoded
      else encoded).

(** [self.encoder_dict_[var]] *)
Definition dict_get {V} (d : gmap string V) (var : string) : result V :=
  match d !! var with
  | Some v => Ok v
  | None => Raise KeyError
  end.

Fixpoint transform_loop (hm : missing_policy) (d : gmap string (list string))
    (vars : list string) (X : DataFrame) (new_values : list matrix)
    : result (DataFrame * list matrix) :=
  match vars with
  | [] => Ok (X, new_values)
  | var :: rest =>
      col0 ← df_get_obj X var;
      let X1 := if decide (hm = impute)
                then df_set X var (ObjCol (fillna ""%string col0)) else X in
      col ← df_get_obj X1 var;
      vocab ← dict_get d var;
      encoded ← encode_column hm vocab col;
      transform_loop hm d rest X1 (new_values ++ [encoded])
  end.

(** [np.hstack]: the blocks side by side. *)
Definition np_hstack (blocks : list matrix) : result matrix :=
  match blocks with
  | [] => Raise ValueError
  | M :: rest =>
      if forallb (fun M' => length M' =? length M)%nat rest
      then Ok (foldl (zip_with app) M rest) else Raise ValueError
  end.

Definition feature_name (feature category : string) : string :=
  if decide (category = ""%string) then feature +:+ "_nan"
  else feature +:+ "_" +:+ category.

(** [StringSimilarityEncoder._get_new_features_name] *)
Fixpoint _get_new_features_name (d : gmap string (list string))
    (vars : list string) : result (list string) :=
  match vars with
  | [] => Ok []
  | feature :: rest =>
      vocab ← dict_get d feature;
      names ← _get_new_features_name d rest;
      Ok ((feature_name feature <$> vocab) ++ names)
  end.

(** [StringSimilarityEncoder._add_new_feature_names], on a fitted encoder
    with [encoder_dict_ = d] and [variables_ = vars]. *)
Definition _add_new_feature_names (d : gmap string (list string))
    (vars : list string) (feature_names : list string) : result (list string) :=
  names ← _get_new_features_name d vars;
  Ok (filter (fun f => f ∉ vars) (feature_names ++ names)).

(** Column [j] of a matrix. *)
Definition matrix_column (M : matrix) (j : nat) : list (option Q) :=
  (fun r => default None (r !! j)) <$> M.

(** [X.loc[:, names] = M]: column [j] of [M] goes to [names[j]]; names that
    are not columns of [X] are appended, in order. A name listed twice, or
    a matrix whose width is not the number of names, is a ValueError. *)
Definition df_loc_set (X : DataFrame) (names : list string) (M : matrix)
    : result DataFrame :=
  if decide (NoDup names) then
    if forallb (fun r => length r =? length names)%nat M
    then Ok (foldl (fun X' jn => df_set X' jn.2 (NumCol (matrix_column M jn.1)))
                   X (imap pair names))
    else Raise ValueError
  else Raise ValueError.

(** [check_is_fitted(self)] *)
Definition check_is_fitted (enc : encoder) : result (gmap string (list string)) :=
  match encoder_dict_ enc with
  | Some d => Ok d
  | None => Raise NotFittedError
  end.

(** [StringSimilarityEncoder.transform]. [_check_transform_input_and_state]
    is defined outside these sources; [X] is the copy it returns for an
    input that passes it. *)
Definition transform (enc : encoder) (X : DataFrame) : result DataFrame :=
  d ← check_is_fitted enc;
  let hm := handle_missing enc in
  let vars := variables_ enc in
  _ ← (if decide (hm = error) then _check_contains_na X vars else Ok ());
  '(X1, new_values) ← transform_loop hm d vars X [];
  new_features ← _get_new_features_name d vars;
  M ← np_hstack new_values;
  X2 ← df_loc_set X1 new_features M;
  df_drop X2 vars.

(** *** The vocabulary as the specification words it *)

(** The column after the missing-value policy: missing entries become the
    empty string under [impute] and are left out otherwise (they are an
    error under [error]). *)
Definition normalise (hm : missing_policy) (col : list (option string)) : list string :=
  match hm with
  | impute => dropna (fillna ""%string col)
  | _ => dropna col
  end.

(** Position of the first occurrence of [v]. *)
Fixpoint first_index `{EqDecision A} (v : A) (l : list A) : nat :=
  match l with
  | [] => 0
  | x :: t => if decide (x = v) then 0 else S (first_index v t)
  end.

(** Number of distinct values. *)
Definition n_unique (values : list string) : nat :=
  size (list_to_set values : gset string).

(** [r] lists the distinct values of [values], most frequent first, values
    with equal counts in the order in which they are first seen. *)
Definition frequency_ranking (values r : list string) : Prop :=
  NoDup r /\
  (forall v, v ∈ r <-> v ∈ values) /\
  forall (i j : nat) a b, (i < j)%nat -> r !! i = Some a -> r !! j = Some b ->
    (count b values <= count a values)%nat /\
    (count a values = count b values ->
     (first_index a values < first_index b values)%nat).

(** [r] lists the distinct values of [values], most frequent first; the
    order among values of equal count is not constrained. *)
Definition descending_ranking (values r : list string) : Prop :=
  NoDup r /\
  (forall v, v ∈ r <-> v ∈ values) /\
  forall (i j : nat) a b, (i < j)%nat -> r !! i = Some a -> r !! j = Some b ->
    (count b values <= count a values)%nat.

(** The column [transform] encodes: under [impute] the missing entries have
    been replaced by the empty string. *)
Definition policy_col (hm : missing_policy) (col : list (option string))
    : list (option string) :=
  if decide (hm = impute) then fillna ""%string col else col.

(** The row of similarity scores of one cell: the score against every
    vocabulary entry for a present value, all-missing for a missing one. *)
Definition similarity_row (vocab : list string) (cell : option string) : row :=
  match cell with
  | Some x => Some <$> _gpm_fast_vec x vocab
  | None => nan_row (length vocab)
  end.

(** [X1] is [X] with some of the columns of [vars] imputed. *)
Definition imputed_frame (vars : list string) (X X1 : DataFrame) : Prop :=
  Forall2 (fun nc nc1 =>
    nc1.1 = nc.1 /\
    (nc1.2 = nc.2 \/
     nc.1 ∈ vars /\ exists cells,
       nc.2 = ObjCol cells /\ nc1.2 = ObjCol (fillna ""%string cells))) X X1.

(** [M] is the similarity block of [var]: one row per cell of [X[var]]. *)
Definition is_block (hm : missing_policy) (d : gmap string (list string))
    (X : DataFrame) (var : string) (M : matrix) : Prop :=
  exists col vocab,
    df_get_obj X var = Ok col /\ col <> [] /\ d !! var = Some vocab /\
    M = similarity_row vocab <$> policy_col hm col.

(** [StringSimilarityEncoder.inverse_transform] *)
Definition inverse_transform (enc : encoder) (X : DataFrame) : result DataFrame :=
  Raise NotImplementedError.

End Encoder.

(** ** Test data

    The frames of tests/test_encoding/test_similarity_encoder.py. *)

Module TestData.
Import Encoder.
Local Open Scope string_scope.

Definition cells (groups : list (string * nat)) : list (option string) :=
  groups ≫= (fun g => replicate g.2 (Some g.1)).

(** [test_encode_top_categories] *)
Definition df_top : DataFrame :=
  [ ("var_A", ObjCol (cells [("A", 5); ("B", 11); ("C", 4); ("D", 9);
                             ("E", 2); ("F", 2); ("G", 7)])%nat);
    ("var_B", ObjCol (cells [("A", 11); ("B", 7); ("C", 4); ("D", 9);
                             ("E", 2); ("F", 2); ("G", 5)])%nat);
    ("var_C", ObjCol (cells [("A", 4); ("B", 5); ("C", 11); ("D", 9);
                             ("E", 2); ("F", 2); ("G", 7)])%nat) ].

Definition enc_top : encoder :=
  Encoder (Some 4%Z) impute ["var_A"; "var_B"; "var_C"] None.

Definition enc_top_fitted : encoder :=
  Encoder (Some 4%Z) impute ["var_A"; "var_B"; "var_C"]
    (Some {[ "var_A" := ["B"; "D"; "G"; "A"];
             "var_B" := ["A"; "D"; "B"; "G"];
             "var_C" := ["C"; "D"; "G"; "B"] ]}).

(** A small frame with a missing entry and a numeric column. *)
Definition df_na : DataFrame :=
  [ ("var_A", ObjCol [Some "B"; None; Some "A"; Some "B"]);
    ("num", NumCol [Some 1%Q; Some 2%Q; None; Some 4%Q]) ].

Definition enc_ignore_fitted : encoder :=
  Encoder None ignore ["var_A"] (Some {[ "var_A" := ["B"; "A"] ]}).

(** What [transform] returns for [df_na] under the [ignore] policy. *)
Definition df_na_encoded : DataFrame :=
  [ ("num", NumCol [Some 1%Q; Some 2%Q; None; Some 4%Q]);
    ("var_A_B", NumCol [Some 1%Q; None; Some 0%Q; Some 1%Q]);
    ("var_A_A", NumCol [Some 0%Q; None; Some 1%Q; Some 0%Q]) ].

Definition enc_error : encoder := Encoder None error ["var_A"] None.



(** A frame in which the name of a similarity column is already taken. *)
Definition df_clash : DataFrame :=
  [ ("var_A", ObjCol [Some "B"]);
    ("var_A_B", NumCol [Some 7%Q]) ].

Definition enc_clash_fitted : encoder :=
  Encoder None ignore ["var_A"] (Some {[ "var_A" := ["B"] ]}).

End TestData.

(** * Properties *)

Lemma bind_Ok {A B} (a : A) (k : A -> result B) : Ok a ≫= k = k a.
Proof. reflexivity. Qed.

Lemma bind_Raise {A B} e (k : A -> result B) : Raise e ≫= k = Raise e.
Proof. reflexivity. Qed.

(** ** Sorting *)

Section SortFacts.
Context {A : Type} (leb : A -> A -> bool).

Lemma insert_sorted_length x (l : list A) :
  length (insert_sorted leb x l) = S (length l).
Proof.
  induction l as [|y t IH]; simpl; [done|].
  destruct (leb x y); simpl; congruence.
Qed.

Lemma sort_length (l : list A) : length (sort leb l) = length l.
Proof.
  induction l as [|x t IH]; simpl; [done|].
  by rewrite insert_sorted_length, IH.
Qed.

Lemma insert_sorted_perm x (l : list A) : insert_sorted leb x l ≡ₚ x :: l.
Proof.
  induction l as [|y t IH]; simpl; [done|].
  destruct (leb x y); [done|].
  rewrite IH. apply Permutation_swap.
Qed.

Lemma sort_perm (l : list A) : sort leb l ≡ₚ l.
Proof.
  induction l as [|x t IH]; simpl; [done|].
  by rewrite insert_sorted_perm, IH.
Qed.

Hypothesis leb_total : forall x y, leb x y = true \/ leb y x = true.
Hypothesis leb_trans : forall x y z,
  leb x y = true -> leb y z = true -> leb x z = true.

Lemma insert_sorted_ranked x (l : list A) :
  ranked leb l -> ranked leb (insert_sorted leb x l).
Proof.
  induction l as [|y t IH]; simpl; [by auto|].
  intros [Hy Ht]. destruct (leb x y) eqn:Hxy; simpl.
  - repeat split; [|done..]. constructor; [done|].
    eapply Forall_impl; [exact Hy|]. intros z Hz; simpl in Hz. eauto.
  - split; [|by apply IH].
    rewrite insert_sorted_perm. constructor; [|done].
    destruct (leb_total x y); congruence.
Qed.

Lemma sort_ranked (l : list A) : ranked leb (sort leb l).
Proof.
  induction l as [|x t IH]; simpl; [done|].
  by apply insert_sorted_ranked.
Qed.
End SortFacts.

Lemma sort_ranked_id {A} (leb : A -> A -> bool) (l : list A) :
  ranked leb l -> sort leb l = l.
Proof.
  induction l as [|x t IH]; simpl; [done|].
  intros [Hx Ht]. rewrite IH by done.
  destruct Hx as [|y t' Hxy _]; simpl; [done|]. by rewrite Hxy.
Qed.

Lemma ranked_removelast {A} (leb : A -> A -> bool) (l : list A) :
  ranked leb l -> ranked leb (removelast l).
Proof.
  induction l as [|x [|y t] IH]; [done|done|].
  intros [Hx Ht]. split; [|by apply IH].
  clear IH Ht. revert Hx. generalize (y :: t) as u.
  induction u as [|z [|w u] IH]; intros Hu; [done|by constructor|].
  apply Forall_cons in Hu as [Hz Hu]. constructor; [done|]. by apply IH.
Qed.

Lemma sort_fmap {A B} (f : A -> B) (lebA : A -> A -> bool) (lebB : B -> B -> bool)
    (l : list A) :
  (forall x y, lebB (f x) (f y) = lebA x y) ->
  sort lebB (f <$> l) = f <$> sort lebA l.
Proof.
  intros Hf. induction l as [|x t IH]; csimpl; [done|].
  rewrite IH. generalize (sort lebA t) as s.
  induction s as [|y s IHs]; csimpl; [done|].
  rewrite Hf. destruct (lebA x y); csimpl; [done|]. by rewrite IHs.
Qed.

(** ** IncreasingWidthDiscretiser *)

Module DiscretiserProofs.
Import Discretiser.
Local Open Scope R_scope.

Lemma Rleb_true a b : Rleb a b = true <-> a <= b.
Proof. unfold Rleb. destruct (Rle_dec a b); split; (done || lra). Qed.

Lemma np_sort_Fin (l : list R) : np_sort (Fin <$> l) = Fin <$> sort Rleb l.
Proof. apply sort_fmap. done. Qed.

(** *** [np.power] on the values [fit] feeds it *)


Lemma np_power_zero b : 0 < b -> np_power (Fin 0) (Fin b) = Fin 0.
Proof.
  intros Hb. unfold np_power.
  destruct (Req_dec_T b 0); [lra|].
  destruct (Rlt_dec 0 0); [lra|].
  destruct (Req_dec_T 0 0); [|lra]. by destruct (Rlt_dec 0 b).
Qed.

Lemma IZR_arange_pos bins k : k ∈ np_arange_from_one bins -> 0 < IZR k.
Proof.
  unfold np_arange_from_one. intros (n & -> & Hn)%list_elem_of_fmap.
  apply elem_of_seq in Hn. apply IZR_lt. lia.
Qed.

Lemma length_arange bins : length (np_arange_from_one bins) = Z.to_nat bins.
Proof. unfold np_arange_from_one. by rewrite length_fmap, length_seq. Qed.

(** *** The two index assignments *)

Lemma insert_last {A} (l : list A) v :
  l <> [] -> <[(length l - 1)%nat := v]> l = removelast l ++ [v].
Proof.
  induction l as [|x [|y t] IH]; intros Hne; [done|done|].
  specialize (IH ltac:(done)). simpl in *.
  rewrite Nat.sub_0_r in IH. by rewrite IH.
Qed.

Lemma list_set_last_ok {A} (l : list A) v :
  l <> [] -> list_set_last l v = Ok (removelast l ++ [v]).
Proof.
  intros Hne. rewrite <- insert_last by done.
  destruct l as [|x t]; [done|].
  unfold list_set_last, list_setitem.
  destruct (decide _) as [_|Hn]; [done|]. simpl in Hn. lia.
Qed.

Lemma set_ends (l : list float) :
  l <> [] ->
  (bins2 ← list_setitem l 0 NegInf; list_set_last bins2 PosInf)
  = Ok (overwrite_last PosInf (overwrite_first NegInf l)).
Proof.
  destruct l as [|x t]; [done|]. intros _.
  unfold list_setitem at 1.
  destruct (decide _) as [_|Hn]; [|simpl in Hn; lia].
  change (list_set_last (NegInf :: t) PosInf
          = Ok (removelast (NegInf :: t) ++ [PosInf])).
  by apply list_set_last_ok.
Qed.

(** [fit_var] with the two exceptions it cannot raise discharged. *)
Lemma fit_var_unfold col bins lo hi :
  series_min col = Fin lo -> series_max col = Fin hi -> bins <> 0%Z ->
  fit_var col bins =
    Ok (overwrite_last PosInf (overwrite_first NegInf (np_sort
      (Fin lo :: (fadd (Fin lo) <$>
         ((fun k => np_power (np_power (Fin (hi - lo)) (Fin (1 / IZR bins)))
                             (Fin (IZR k))) <$> np_arange_from_one bins)))))).
Proof.
  intros Hlo Hhi Hb. unfold fit_var. rewrite Hlo, Hhi.
  unfold float_div_one. destruct (Z.eq_dec bins 0%Z); [done|].
  rewrite bind_Ok. cbv beta zeta.
  change (fsub (Fin hi) (Fin lo)) with (Fin (hi - lo)).
  apply set_ends. intros Hnil.
  apply (f_equal length) in Hnil. unfold np_sort in Hnil.
  rewrite sort_length in Hnil. done.
Qed.

(** *** Shape of the stored list *)



(** *** The boundaries of [binner_dict_], over any arithmetic *)

Lemma float_leb_total x y : float_leb x y = true \/ float_leb y x = true.
Proof.
  destruct x as [|a| |], y as [|b| |]; simpl; auto.
  destruct (Rle_dec a b), (Rle_dec b a); auto. lra.
Qed.

Lemma float_leb_trans x y z :
  float_leb x y = true -> float_leb y z = true -> float_leb x z = true.
Proof.
  destruct x as [|a| |], y as [|b| |], z as [|c| |]; simpl; try done.
  destruct (Rle_dec a b), (Rle_dec b c), (Rle_dec a c); try done. lra.
Qed.

Lemma float_leb_le x y :
  is_nan x = false -> is_nan y = false -> float_leb x y = true -> float_le x y.
Proof.
  destruct x as [|a| |], y as [|b| |]; simpl; try done.
  by destruct (Rle_dec a b).
Qed.

Lemma ranked_filter {A} (leb : A -> A -> bool) (P : A -> Prop)
    `{forall x, Decision (P x)} (l : list A) :
  ranked leb l -> ranked leb (filter P l).
Proof.
  induction l as [|x t IH]; [done|]. intros [Hx Ht].
  rewrite filter_cons. destruct (decide (P x)); [|by apply IH].
  split; [|by apply IH].
  apply Forall_forall. intros y [_ Hy]%list_elem_of_filter.
  rewrite Forall_forall in Hx. by apply Hx.
Qed.

(** A sorted run without NaN, after an entry that is not above it and
    before +inf, is in non-decreasing order. *)
Lemma non_decreasing_run (h : float) (m : list float) :
  is_nan h = false -> Forall (fun x => is_nan x = false) m ->
  Forall (fun y => float_leb h y = true) m -> ranked float_leb m ->
  non_decreasing (h :: m ++ [PosInf]).
Proof.
  revert h. induction m as [|a m IH]; intros h Hh Hm Hhm Hr.
  { simpl. split; [|done]. by destruct h. }
  apply Forall_cons in Hm as [Ha Hm]. apply Forall_cons in Hhm as [Hha _].
  destruct Hr as [Ham Hr].
  change (float_le h a /\ non_decreasing (a :: m ++ [PosInf])).
  split; [by apply float_leb_le|]. by apply IH.
Qed.

Lemma overwrite_ends (s : list float) :
  (2 <= length s)%nat ->
  overwrite_last PosInf (overwrite_first NegInf s)
  = NegInf :: removelast (tail s) ++ [PosInf].
Proof. destruct s as [|x [|y t]]; [simpl; lia|simpl; lia|done]. Qed.

(** The list [fit] stores: the sorted array of [bins + 1] entries with its
    two ends overwritten. *)
Lemma fit_var_in_sorted `{Arithmetic} (col : series) bins :
  (0 < bins)%Z ->
  exists s : list float,
    length s = S (Z.to_nat bins) /\ ranked float_leb s /\
    fit_var_in col bins
    = Ok (NegInf :: removelast (tail s) ++ [PosInf]).
Proof.
  intros Hbins. unfold fit_var_in.
  destruct (Z.eq_dec bins 0%Z); [lia|]. rewrite bind_Ok. cbv beta zeta.
  set (bins0 := arith_float (arith_min col) :: _).
  assert (length (np_sort bins0) = S (Z.to_nat bins)) as Hlen.
  { unfold np_sort. rewrite sort_length. subst bins0. simpl.
    by rewrite !length_fmap, length_arange. }
  exists (np_sort bins0). split; [done|]. split.
  { apply sort_ranked; [apply float_leb_total|apply float_leb_trans]. }
  rewrite set_ends.
  - rewrite overwrite_ends; [done|]. rewrite Hlen. lia.
  - intros Hnil. by rewrite Hnil in Hlen.
Qed.

Lemma boundaries_shape (s : list float) (n : nat) :
  length s = S n -> (1 <= n)%nat -> ranked float_leb s ->
  let l := NegInf :: removelast (tail s) ++ [PosInf] in
  length l = S n /\ l !! 0%nat = Some NegInf /\ last l = Some PosInf /\
  non_decreasing (not_nan l) /\
  (Forall (fun x => is_nan x = false) l -> non_decreasing l).
Proof.
  intros Hlen Hn Hr l. subst l.
  set (m := removelast (tail s)).
  assert (ranked float_leb m) as Hm.
  { apply ranked_removelast. destruct s; [done|]. apply Hr. }
  assert (length m = (n - 1)%nat) as Hlm.
  { subst m. destruct s as [|x t]; [done|]. simpl in *.
    destruct t as [|y t] using rev_ind; [simpl in *; lia|].
    rewrite removelast_last. rewrite length_app in Hlen. simpl in Hlen. lia. }
  assert (Forall (fun y => float_leb NegInf y = true) m) as Hneg.
  { apply Forall_forall. intros y _. by destruct y. }
  split; [|split; [|split; [|split]]].
  - simpl. rewrite length_app, Hlm. simpl. lia.
  - done.
  - change (NegInf :: ?t) with ([NegInf] ++ t). rewrite app_assoc.
    apply last_snoc.
  - unfold not_nan. rewrite filter_cons, decide_True by done.
    rewrite filter_app. change (filter _ [PosInf]) with [PosInf].
    apply non_decreasing_run; [done|..].
    + apply Forall_forall. by intros y [Hy _]%list_elem_of_filter.
    + apply Forall_forall. intros y [_ Hy]%list_elem_of_filter.
      rewrite Forall_forall in Hneg. by apply Hneg.
    + by apply ranked_filter.
  - intros [_ Hall]%Forall_cons. apply Forall_app in Hall as [Hall _].
    by apply non_decreasing_run.
Qed.

Lemma fit_loop_in_spec `{Arithmetic} (X : gmap string series) bins vars d0 :
  (0 < bins)%Z ->
  (forall var, var ∈ vars -> is_Some (X !! var)) ->
  exists d, fit_loop_in X bins vars d0 = Ok d /\
    forall var,
      (var ∈ vars -> exists col l,
          X !! var = Some col /\ fit_var_in col bins = Ok l /\ d !! var = Some l)
      /\ (var ∉ vars -> d !! var = d0 !! var).
Proof.
  intros Hbins. revert d0. induction vars as [|v rest IH]; intros d0 Hcols.
  { exists d0. split; [done|]. intros var. split; [|done]. by intros ?%elem_of_nil. }
  destruct (Hcols v) as [col HX]; [by left|].
  destruct (fit_var_in_sorted col bins Hbins) as (s & _ & _ & Hfit).
  simpl. rewrite HX, Hfit, bind_Ok.
  destruct (IH (<[v := NegInf :: removelast (tail s) ++ [PosInf]]> d0))
    as (d & Hd & Hspec).
  { intros var Hvar. apply Hcols. by right. }
  exists d. split; [done|]. intros var. split.
  - intros Hvar. destruct (decide (var ∈ rest)) as [Hin|Hnin].
    { by apply Hspec. }
    apply elem_of_cons in Hvar as [->|?]; [|done].
    exists col, (NegInf :: removelast (tail s) ++ [PosInf]).
    split; [done|]. split; [done|].
    rewrite (proj2 (Hspec v) Hnin). apply lookup_insert_eq.
  - intros Hvar. apply not_elem_of_cons in Hvar as [Hne' Hnin].
    rewrite (proj2 (Hspec var) Hnin). by apply lookup_insert_ne.
Qed.

(** On real numbers in exact arithmetic the loop is [fit]. *)
Lemma fit_var_in_real (col : list R) bins :
  fit_var_in (H := real_arithmetic) col bins = fit_var col bins.
Proof. reflexivity. Qed.

Lemma fit_in_real (X : gmap string (list R)) bins vars :
  fit_in (H := real_arithmetic) X bins vars = fit X bins vars.
Proof.
  unfold fit_in, fit. generalize (∅ : gmap string (list float)).
  induction vars as [|v rest IH]; intros d0; [done|].
  simpl. destruct (X !! v) as [col|]; [|done].
  rewrite fit_var_in_real. destruct (fit_var col bins) as [l|]; [|done].
  rewrite !bind_Ok. apply IH.
Qed.

(** C1, as amended. For every variable fitted with a positive [bins],
    whatever the dtype of the column and however the arithmetic rounds,
    overflows or wraps around, [fit] returns and the list stored in
    [binner_dict_] has exactly [bins + 1] entries, its first entry is -inf
    and its last entry is +inf. Its entries that are not NaN are in
    non-decreasing order, so the whole list is when no edge is NaN. *)
Theorem binner_dict_boundaries `{Arithmetic} (X : gmap string series) bins vars :
  (0 < bins)%Z ->
  (forall var, var ∈ vars -> is_Some (X !! var)) ->
  exists d, fit_in X bins vars = Ok d /\
    forall var, var ∈ vars ->
      exists l, d !! var = Some l /\
        length l = S (Z.to_nat bins) /\
        l !! 0%nat = Some NegInf /\
        last l = Some PosInf /\
        non_decreasing (not_nan l) /\
        (Forall (fun x => is_nan x = false) l -> non_decreasing l).
Proof.
  intros Hbins Hcols.
  destruct (fit_loop_in_spec X bins vars ∅ Hbins Hcols) as (d & Hd & Hspec).
  exists d. split; [done|]. intros var Hvar.
  destruct (proj1 (Hspec var) Hvar) as (col & l & HX & Hfit & Hl).
  exists l. split; [done|].
  destruct (fit_var_in_sorted col bins Hbins) as (s & Hlen & Hr & Hfit').
  assert (l = NegInf :: removelast (tail s) ++ [PosInf]) as -> by congruence.
  apply boundaries_shape; [done|lia|done].
Qed.

Lemma binner_dict_boundaries_witness :
  exists d,
    fit_in (H := real_arithmetic) {["x" := ([0; 1] : list R)]} 3 ["x"] = Ok d /\
    forall var, var ∈ ["x"] ->
      exists l, d !! var = Some l /\
        length l = S (Z.to_nat 3) /\
        l !! 0%nat = Some NegInf /\
        last l = Some PosInf /\
        non_decreasing (not_nan l) /\
        (Forall (fun x => is_nan x = false) l -> non_decreasing l).
Proof.
  apply (binner_dict_boundaries (H := real_arithmetic)
           {["x" := ([0; 1] : list R)]} 3 ["x"]).
  - lia.
  - intros var Hvar. apply list_elem_of_singleton in Hvar as ->.
    by rewrite lookup_singleton_eq.
Defined.

Lemma Rpower_one_l y : Rpower 1 y = 1.
Proof. unfold Rpower. by rewrite ln_1, Rmult_0_r, exp_0. Qed.

Lemma np_power_one_l b : np_power (Fin 1) (Fin b) = Fin 1.
Proof.
  unfold np_power. destruct (Req_dec_T b 0); [done|].
  destruct (Rlt_dec 0 1); [|lra]. by rewrite Rpower_one_l.
Qed.

(** C1, counterexample. On the column [0.0, 1.0] with [bins = 3] the
    increment is [1.0 ** (1/3) = 1.0], every power of it is [1.0], and the
    stored list [-inf, 1.0, 1.0, +inf] is not strictly increasing. *)
Lemma binner_dict_not_strictly_increasing :
  fit_var [0; 1] 3 = Ok [NegInf; Fin 1; Fin 1; PosInf] /\
  ~ strictly_increasing [NegInf; Fin 1; Fin 1; PosInf].
Proof.
  split.
  - rewrite (fit_var_unfold [0; 1] 3 0 1).
    + replace (1 - 0) with 1 by lra. rewrite np_power_one_l.
      change (np_arange_from_one 3) with [1%Z; 2%Z; 3%Z].
      rewrite !fmap_cons, !np_power_one_l, !fmap_nil.
      change (fadd (Fin 0) (Fin 1)) with (Fin (0 + 1)).
      replace (0 + 1) with 1 by lra.
      change [Fin 0; Fin 1; Fin 1; Fin 1] with (Fin <$> [0; 1; 1; 1]).
      rewrite np_sort_Fin, sort_ranked_id; [done|].
      simpl. repeat split; repeat constructor; apply Rleb_true; lra.
    + simpl. f_equal. apply Rmin_left. lra.
    + simpl. f_equal. apply Rmax_right. lra.
    + done.
  - simpl. intros (_ & Hlt & _). lra.
Qed.

(** *** Refinement of the stated algorithm *)



(** *** Constant columns *)

Lemma ranked_replicate {A} (leb : A -> A -> bool) x n :
  leb x x = true -> ranked leb (replicate n x).
Proof.
  intros Hx. induction n as [|n IH]; simpl; [done|].
  split; [|done]. by apply Forall_replicate.
Qed.


(** The stored list of a constant column. *)
Lemma fit_var_constant col c bins :
  series_min col = Fin c -> series_max col = Fin c -> (1 <= bins)%Z ->
  fit_var col bins
  = Ok (NegInf :: replicate (Z.to_nat bins - 1) (Fin c) ++ [PosInf]).
Proof.
  intros Hlo Hhi Hbins.
  rewrite (fit_var_unfold col bins c c) by (done || lia).
  replace (c - c) with 0 by lra.
  rewrite np_power_zero.
  2:{ apply Rdiv_lt_0_compat; [lra|]. apply IZR_lt. lia. }
  assert (Fin c :: (fadd (Fin c) <$>
            ((fun k => np_power (Fin 0) (Fin (IZR k))) <$> np_arange_from_one bins))
          = replicate (S (Z.to_nat bins)) (Fin c)) as ->.
  { change (replicate (S ?n) ?x) with (x :: replicate n x). f_equal.
    symmetry. apply replicate_as_Forall. split.
    - by rewrite !length_fmap, length_arange.
    - rewrite <- list_fmap_compose. apply Forall_fmap, Forall_forall.
      intros k Hk. unfold compose.
      rewrite np_power_zero by (by eapply IZR_arange_pos).
      simpl. f_equal. lra. }
  unfold np_sort. rewrite sort_ranked_id.
  2:{ apply ranked_replicate. simpl. apply Rleb_true. lra. }
  f_equal. destruct (Z.to_nat bins) as [|n] eqn:Hn; [lia|].
  change (removelast (NegInf :: replicate (S n) (Fin c)) ++ [PosInf]
          = NegInf :: replicate (S n - 1) (Fin c) ++ [PosInf]).
  rewrite replicate_S_end.
  change (NegInf :: replicate n (Fin c) ++ [Fin c])
    with ((NegInf :: replicate n (Fin c)) ++ [Fin c]).
  rewrite removelast_last. by replace (S n - 1)%nat with n by lia.
Qed.




(** With [bins = 2] there is a single middle entry: the stored list is
    [-inf, c, +inf]. *)
Lemma constant_column_two_bins :
  fit_var [5] 2 = Ok [NegInf; Fin 5; PosInf].
Proof. by rewrite (fit_var_constant [5] 5 2) by (done || lia). Qed.

End DiscretiserProofs.

(** ** StringSimilarityEncoder *)

Module EncoderProofs.
Import Encoder.

(** *** quick_ratio of a string with itself *)

Lemma count_cons `{EqDecision A} (x y : A) (l : list A) :
  count x (y :: l) = if decide (y = x) then S (count x l) else count x l.
Proof.
  unfold count. rewrite filter_cons. by destruct (decide (y = x)).
Qed.

Lemma fullbcount_from (b : list ascii) (m : gmap ascii Z) x :
  default 0%Z
    (foldl (fun m elt => <[elt := (default 0 (m !! elt) + 1)%Z]> m) m b !! x)
  = (default 0 (m !! x) + Z.of_nat (count x b))%Z.
Proof.
  revert m. induction b as [|y b IH]; intros m; simpl.
  { unfold count. simpl. lia. }
  rewrite IH, count_cons. destruct (decide (y = x)) as [->|Hne].
  - rewrite lookup_insert_eq. simpl. lia.
  - by rewrite lookup_insert_ne.
Qed.

Lemma fullbcount_lookup (b : list ascii) x :
  default 0%Z (fullbcount b !! x) = Z.of_nat (count x b).
Proof. unfold fullbcount. by rewrite fullbcount_from, lookup_empty. Qed.

(** While every character still to come is available often enough, every
    turn of the loop counts a match. *)
Lemma quick_ratio_all_match (fb : gmap ascii Z) (a : list ascii) avail matches :
  (forall x, Z.of_nat (count x a) <= available fb avail x)%Z ->
  (foldl (quick_ratio_step fb) (avail, matches) a).2
  = (matches + Z.of_nat (length a))%Z.
Proof.
  revert avail matches. induction a as [|elt a IH]; intros avail matches Hav.
  { simpl. lia. }
  cbn [foldl quick_ratio_step].
  pose proof (Hav elt) as Helt. rewrite count_cons in Helt.
  destruct (decide (elt = elt)); [|done].
  destruct (0 <? available fb avail elt)%Z eqn:Hpos; [|lia].
  rewrite IH; [simpl length; lia|].
  intros x. specialize (Hav x). rewrite count_cons in Hav.
  unfold available in *. destruct (decide (elt = x)) as [->|Hne].
  - rewrite lookup_insert_eq. lia.
  - by rewrite lookup_insert_ne.
Qed.

Lemma quick_ratio_matches_self (a : list ascii) :
  quick_ratio_matches a a = Z.of_nat (length a).
Proof.
  unfold quick_ratio_matches. rewrite quick_ratio_all_match; [lia|].
  intros x. unfold available. rewrite lookup_empty, fullbcount_lookup. lia.
Qed.

Lemma calculate_ratio_full (n : nat) :
  calculate_ratio (Z.of_nat n) (n + n) = 1%Q.
Proof.
  destruct n as [|n]; [done|].
  unfold calculate_ratio. cbn [Nat.add].
  change 1%Q with (Qred 1). apply Qred_complete.
  unfold Qeq. cbn [Qnum Qden].
  rewrite <- Pos.of_nat_succ, Zpos_P_of_succ_nat. lia.
Qed.

(** *** Stability of the sort *)

Section Stable.
Context {A : Type} (leb : A -> A -> bool) (R : A -> A -> Prop).
Hypothesis leb_total : forall x y, leb x y = true \/ leb y x = true.
Hypothesis leb_trans : forall x y z,
  leb x y = true -> leb y z = true -> leb x z = true.

Lemma insert_sorted_stable x (l : list A) :
  Forall (R x) l -> StronglySorted (stable_before leb R) l ->
  StronglySorted (stable_before leb R) (insert_sorted leb x l).
Proof.
  induction l as [|y t IH]; intros HR Hs; simpl.
  { repeat constructor. }
  apply StronglySorted_inv in Hs as [Ht Hy].
  apply Forall_cons in HR as [HRy HRt].
  destruct (leb x y) eqn:Hxy.
  - constructor; [by constructor|]. constructor; [by split|].
    rewrite Forall_forall in Hy, HRt |- *. intros z Hz. split.
    + eapply leb_trans; [done|]. by apply Hy.
    + intros _. by apply HRt.
  - constructor; [by apply IH|].
    rewrite insert_sorted_perm. constructor; [|done]. split.
    + destruct (leb_total x y); congruence.
    + congruence.
Qed.

Lemma sort_stable (l : list A) :
  StronglySorted R l -> StronglySorted (stable_before leb R) (sort leb l).
Proof.
  induction l as [|x t IH]; intros Hs; simpl; [constructor|].
  apply StronglySorted_inv in Hs as [Ht Hx].
  apply insert_sorted_stable; [|by apply IH].
  by rewrite sort_perm.
Qed.
End Stable.

Lemma StronglySorted_lookup {A} (R : A -> A -> Prop) (l : list A) (i j : nat) a b :
  StronglySorted R l -> (i < j)%nat ->
  l !! i = Some a -> l !! j = Some b -> R a b.
Proof.
  intros Hs. revert i j. induction Hs as [|x t Ht IH Hx]; intros i j Hij Hi Hj.
  { done. }
  destruct j as [|j]; [lia|]. destruct i as [|i]; simpl in *.
  - injection Hi as ->. rewrite Forall_forall in Hx.
    apply Hx. by eapply list_elem_of_lookup_2.
  - apply (IH i j); (done || lia).
Qed.

Lemma StronglySorted_filter {A} (R : A -> A -> Prop) (P : A -> Prop)
    `{forall x, Decision (P x)} (l : list A) :
  StronglySorted R l -> StronglySorted R (filter P l).
Proof.
  induction 1 as [|x t Ht IH Hx]; [constructor|].
  rewrite filter_cons. destruct (decide (P x)); [|done].
  constructor; [done|].
  rewrite Forall_forall in Hx |- *.
  intros y [_ Hy]%list_elem_of_filter. by apply Hx.
Qed.

Lemma StronglySorted_impl_elem {A} (R R' : A -> A -> Prop) (l : list A) :
  (forall a b, a ∈ l -> b ∈ l -> R a b -> R' a b) ->
  StronglySorted R l -> StronglySorted R' l.
Proof.
  intros Himpl Hs. induction Hs as [|x t Ht IH Hx]; [constructor|].
  constructor.
  - apply IH. intros a b Ha Hb. apply Himpl; by right.
  - rewrite Forall_forall in Hx |- *. intros y Hy.
    apply Himpl; [by left|by right|by apply Hx].
Qed.

Lemma StronglySorted_fmap_2 {A B} (R : B -> B -> Prop) (f : A -> B) (l : list A) :
  StronglySorted (fun x y => R (f x) (f y)) l -> StronglySorted R (f <$> l).
Proof.
  induction 1 as [|x t Ht IH Hx]; [constructor|].
  rewrite fmap_cons. constructor; [done|]. by apply Forall_fmap.
Qed.

(** *** [unique] *)

Lemma elem_of_unique `{EqDecision A} (l : list A) v : v ∈ unique l <-> v ∈ l.
Proof.
  induction l as [|x t IH]; simpl; [done|].
  rewrite !elem_of_cons, list_elem_of_filter, IH.
  destruct (decide (v = x)); tauto.
Qed.

Lemma NoDup_unique `{EqDecision A} (l : list A) : NoDup (unique l).
Proof.
  induction l as [|x t IH]; simpl; [constructor|].
  constructor; [|by apply NoDup_filter].
  rewrite list_elem_of_filter. tauto.
Qed.

Lemma unique_first_seen `{EqDecision A} (l : list A) :
  StronglySorted (fun a b => (first_index a l < first_index b l)%nat) (unique l).
Proof.
  induction l as [|x t IH]; simpl; [constructor|].
  constructor.
  - apply (StronglySorted_impl_elem
             (fun a b => (first_index a t < first_index b t)%nat)).
    + intros a b [Ha _]%list_elem_of_filter [Hb _]%list_elem_of_filter Hab.
      simpl. destruct (decide (x = a)), (decide (x = b)); (done || lia).
    + by apply StronglySorted_filter.
  - rewrite Forall_forall. intros y [Hy _]%list_elem_of_filter.
    simpl. destruct (decide (x = x)), (decide (x = y)); (done || lia).
Qed.

(** *** The two sorts sort by count *)

Lemma ranked_StronglySorted {A} (leb : A -> A -> bool) (l : list A) :
  ranked leb l -> StronglySorted (fun x y => leb x y = true) l.
Proof.
  induction l as [|x t IH]; [constructor|]. intros [Hx Ht]. by constructor; auto.
Qed.



Lemma first_seen_sort_ok : sorts_by_count (H := first_seen_sort).
Proof.
  intros l. unfold sort_values, first_seen_sort. split; [apply sort_perm|].
  eapply StronglySorted_impl_elem; [|apply ranked_StronglySorted, sort_ranked].
  - intros x y _ _. simpl. by rewrite Nat.leb_le.
  - intros x y. rewrite !Nat.leb_le. lia.
  - intros x y z. rewrite !Nat.leb_le. lia.
Qed.


(** *** [value_counts] ranks by descending count *)

Lemma value_counts_perm `{ValueSort} (s : list (option string)) :
  sorts_by_count -> index_tolist (value_counts s) ≡ₚ unique (dropna s).
Proof.
  intros Hsort. unfold index_tolist, value_counts.
  rewrite (proj1 (Hsort _)), <- list_fmap_compose. by rewrite list_fmap_id.
Qed.

Lemma value_counts_descending `{ValueSort} (s : list (option string)) :
  sorts_by_count ->
  descending_ranking (dropna s) (index_tolist (value_counts s)).
Proof.
  intros Hsort. pose proof (value_counts_perm s Hsort) as Hperm.
  split; [|split].
  - rewrite Hperm. apply NoDup_unique.
  - intros v. rewrite Hperm. apply elem_of_unique.
  - intros i j a b Hij Hi Hj.
    unfold index_tolist, value_counts in Hi, Hj.
    set (values := dropna s) in *.
    set (pairs := (fun v => (v, count v values)) <$> unique values) in *.
    apply list_lookup_fmap_Some in Hi as (p & -> & Hp).
    apply list_lookup_fmap_Some in Hj as (q & -> & Hq).
    destruct (Hsort pairs) as [Hpairs Hsorted].
    assert (forall x, x ∈ sort_values pairs -> x.2 = count x.1 values) as Hcount.
    { intros x. rewrite Hpairs. subst pairs.
      by intros (v & -> & _)%list_elem_of_fmap. }
    rewrite <- (Hcount p), <- (Hcount q) by (by eapply list_elem_of_lookup_2).
    apply (StronglySorted_lookup _ _ i j p q Hsorted Hij Hp Hq).
Qed.

(** With the stable sort the values of equal count come in first-seen
    order. *)
Lemma first_seen_sort_ranking (s : list (option string)) :
  frequency_ranking (dropna s)
    (index_tolist (value_counts (H := first_seen_sort) s)).
Proof.
  pose proof (value_counts_perm (H := first_seen_sort) s first_seen_sort_ok)
    as Hperm.
  split; [|split].
  - rewrite Hperm. apply NoDup_unique.
  - intros v. rewrite Hperm. apply elem_of_unique.
  - intros i j a b Hij Hi Hj.
    unfold index_tolist, value_counts, sort_values, first_seen_sort in Hi, Hj.
    set (values := dropna s) in *.
    set (leb := fun x y : string * nat => (y.2 <=? x.2)%nat) in *.
    set (pairs := (fun v => (v, count v values)) <$> unique values) in *.
    apply list_lookup_fmap_Some in Hi as (p & -> & Hp).
    apply list_lookup_fmap_Some in Hj as (q & -> & Hq).
    assert (forall x, x ∈ sort leb pairs -> x.2 = count x.1 values) as Hcount.
    { intros x. rewrite sort_perm. subst pairs.
      by intros (v & -> & _)%list_elem_of_fmap. }
    rewrite <- (Hcount p), <- (Hcount q) by (by eapply list_elem_of_lookup_2).
    assert (StronglySorted
              (fun x y => leb x y = true /\
                 (leb y x = true ->
                  (first_index x.1 values < first_index y.1 values)%nat))
              (sort leb pairs)) as Hs.
    { apply sort_stable.
      - intros x y. subst leb. simpl. rewrite !Nat.leb_le. lia.
      - intros x y z. subst leb. simpl. rewrite !Nat.leb_le. lia.
      - subst pairs. apply StronglySorted_fmap_2. simpl.
        apply unique_first_seen. }
    destruct (StronglySorted_lookup _ _ i j p q Hs Hij Hp Hq) as [Hle Htie].
    subst leb. simpl in Hle, Htie. rewrite Nat.leb_le in Hle, Htie.
    split; [done|]. intros Heq. apply Htie. lia.
Qed.

(** *** [fit] *)

Lemma encoder_fit_loop_spec f (X : DataFrame) vars d0 d :
  fit_loop f X vars d0 = Ok d ->
  forall var,
    (var ∈ vars -> exists col, df_get_obj X var = Ok col /\ d !! var = Some (f col))
    /\ (var ∉ vars -> d !! var = d0 !! var).
Proof.
  revert d0. induction vars as [|v rest IH]; intros d0 Hfit var.
  { injection Hfit as <-. split; [by intros ?%elem_of_nil|done]. }
  simpl in Hfit. destruct (df_get_obj X v) as [col|e] eqn:Hcol; [|done].
  rewrite bind_Ok in Hfit. specialize (IH _ Hfit). split.
  - intros Hvar. destruct (decide (var ∈ rest)) as [Hin|Hnin].
    { by apply IH. }
    apply elem_of_cons in Hvar as [->|?]; [|done].
    exists col. split; [done|].
    rewrite (proj2 (IH v) Hnin). apply lookup_insert_eq.
  - intros [Hne Hnin]%not_elem_of_cons.
    rewrite (proj2 (IH var) Hnin). by apply lookup_insert_ne.
Qed.

(** What [fit] stores for a variable. *)
Lemma fit_learns `{ValueSort} enc X enc' var :
  fit enc X = Ok enc' -> var ∈ variables_ enc ->
  exists d col,
    encoder_dict_ enc' = Some d /\
    df_get_obj X var = Ok col /\
    d !! var =
      Some (head (top_categories enc)
              (index_tolist (value_counts
                 (match handle_missing enc with
                  | impute => fillna ""%string col
                  | _ => col
                  end)))).
Proof.
  unfold fit. intros Hfit Hvar.
  destruct (handle_missing enc) eqn:Hhm;
    [destruct (_check_contains_na X (variables_ enc)); [|done];
     rewrite bind_Ok in Hfit|..].
  all: destruct (fit_loop _ X (variables_ enc) ∅) as [d|] eqn:Hloop; [|done].
  all: injection Hfit as <-; simpl.
  all: destruct (proj1 (encoder_fit_loop_spec _ _ _ _ _ Hloop var) Hvar)
         as (col & Hcol & Hd).
  all: exists d, col; split; [done|]; split; [done|].
  all: rewrite Hd; unfold learn, index_tolist, head.
  all: destruct (top_categories enc) as [k|]; [|done].
  all: by destruct (0 <=? k)%Z; rewrite fmap_take, ?length_fmap.
Qed.

Lemma normalise_dropna hm (col : list (option string)) :
  dropna (match hm with impute => fillna ""%string col | _ => col end)
  = normalise hm col.
Proof. by destruct hm. Qed.



(** C5. For every variable fitted by the encoder, [encoder_dict_[var]] has
    no duplicate entries; its length is the minimum of [top_categories] and
    the number of distinct values (after the missing-value policy) when
    [top_categories] is a positive integer, and the number of distinct values
    when [top_categories] is None. This holds for every sort by count. *)
Theorem encoder_dict_size `{ValueSort} enc X enc' var :
  sorts_by_count ->
  (forall k, top_categories enc = Some k -> (0 < k)%Z) ->
  fit enc X = Ok enc' -> var ∈ variables_ enc ->
  exists d col vocab,
    encoder_dict_ enc' = Some d /\
    df_get_obj X var = Ok col /\
    d !! var = Some vocab /\
    NoDup vocab /\
    length vocab =
      match top_categories enc with
      | Some k => Z.to_nat k `min` n_unique (normalise (handle_missing enc) col)
      | None => n_unique (normalise (handle_missing enc) col)
      end.
Proof.
  intros Hsort Htop Hfit Hvar.
  destruct (fit_learns enc X enc' var Hfit Hvar) as (d & col & Hd & Hcol & Hv).
  pose proof (value_counts_descending
    (match handle_missing enc with impute => fillna ""%string col | _ => col end)
    Hsort) as (Hnd & Hel & _).
  rewrite normalise_dropna in Hel.
  set (r := index_tolist (value_counts _)) in *.
  assert (length r = n_unique (normalise (handle_missing enc) col)) as Hlen.
  { unfold n_unique.
    rewrite <- (size_list_to_set (C := gset string) r) by done.
    f_equal. apply set_eq. intros v. by rewrite !elem_of_list_to_set. }
  eexists d, col, _. split; [done|]. split; [done|]. split; [done|].
  destruct (top_categories enc) as [k|]; [|done].
  specialize (Htop k eq_refl). unfold head.
  rewrite (proj2 (Z.leb_le 0 k)) by lia. split.
  - eapply sublist_NoDup; [done|apply sublist_take].
  - by rewrite length_take, Hlen.
Qed.


Lemma encoder_dict_size_witness :
  exists d col vocab,
    encoder_dict_ TestData.enc_top_fitted = Some d /\
    df_get_obj TestData.df_top "var_B" = Ok col /\
    d !! "var_B"%string = Some vocab /\
    NoDup vocab /\
    length vocab = 4%nat `min` n_unique (normalise impute col).
Proof.
  apply (encoder_dict_size (H := first_seen_sort)
           TestData.enc_top TestData.df_top TestData.enc_top_fitted "var_B").
  - apply first_seen_sort_ok.
  - intros k [= <-]. lia.
  - vm_compute. reflexivity.
  - simpl. set_solver.
Defined.

(** *** The similarity block of one variable *)

Lemma column_encoder_dict_fold (g : string -> row) (cats : list string)
    (d0 : gmap (option string) row) (x : string) :
  foldl (fun d y => <[Some y := g y]> d) d0 cats !! Some x
  = if decide (x ∈ cats) then Some (g x) else d0 !! Some x.
Proof.
  revert d0. induction cats as [|y t IH]; intros d0; simpl.
  { destruct (decide (x ∈ [])) as [[]%elem_of_nil|]; done. }
  rewrite IH. destruct (decide (x ∈ t)) as [Hin|Hnin].
  - rewrite decide_True by (by right). done.
  - destruct (decide (x = y)) as [->|Hne].
    + rewrite lookup_insert_eq, decide_True by (by left). done.
    + rewrite lookup_insert_ne by congruence.
      rewrite decide_False; [done|]. by intros [?|?]%elem_of_cons.
Qed.

Lemma dict_comprehension_Raise vocab e (cats : list string) :
  foldl (dict_comprehension_step vocab) (Raise e) cats = Raise e.
Proof. induction cats as [|y t IH]; [done|]. simpl. apply IH. Qed.

Lemma dict_comprehension_Ok vocab (cats : list string) d0 :
  vocab <> [] ->
  foldl (dict_comprehension_step vocab) (Ok d0) cats
  = Ok (foldl (fun d y => <[Some y := Some <$> _gpm_fast_vec y vocab]> d)
              d0 cats).
Proof.
  intros Hne. revert d0. induction cats as [|y t IH]; intros d0; [done|].
  simpl. rewrite <- IH. f_equal.
  unfold dict_comprehension_step, _gpm_fast_vec_call. by destruct vocab.
Qed.

(** The dict is built unless a value meets an empty vocabulary. *)
Lemma column_encoder_dict_Ok cats vocab :
  vocab <> [] \/ cats = [] ->
  column_encoder_dict cats vocab
  = Ok (<[None := nan_row (length vocab)]>
          (foldl (fun d y => <[Some y := Some <$> _gpm_fast_vec y vocab]> d)
                 ∅ cats)).
Proof.
  unfold column_encoder_dict. intros [Hne| ->]; [|done].
  by rewrite dict_comprehension_Ok.
Qed.

Lemma column_encoder_dict_Raise x cats :
  column_encoder_dict (x :: cats) [] = Raise ValueError.
Proof.
  unfold column_encoder_dict. simpl. by rewrite dict_comprehension_Raise.
Qed.

Lemma column_encoder_dict_lookup cats vocab d (cell : option string) :
  column_encoder_dict cats vocab = Ok d ->
  (forall x, cell = Some x -> x ∈ cats) ->
  d !! cell = Some (similarity_row vocab cell).
Proof.
  intros Hd Hin.
  assert (vocab <> [] \/ cats = []) as Hok.
  { destruct vocab as [|c vocab]; [|by left]. right.
    destruct cats as [|x cats]; [done|].
    by rewrite column_encoder_dict_Raise in Hd. }
  rewrite column_encoder_dict_Ok in Hd by done. injection Hd as <-.
  destruct cell as [x|]; simpl.
  - rewrite lookup_insert_ne by done.
    rewrite column_encoder_dict_fold, decide_True by (by apply Hin). done.
  - apply lookup_insert_eq.
Qed.

Lemma length_similarity_row vocab cell :
  length (similarity_row vocab cell) = length vocab.
Proof.
  destruct cell; simpl.
  - unfold _gpm_fast_vec. by rewrite !length_fmap.
  - apply length_replicate.
Qed.

Lemma series_map_rows vocab (col : list (option string)) d :
  column_encoder_dict (unique (dropna col)) vocab = Ok d ->
  series_map d col = (fun cell => Some (similarity_row vocab cell)) <$> col.
Proof.
  intros Hd. unfold series_map.
  apply Forall_fmap_ext, Forall_forall. intros cell Hcell.
  apply (column_encoder_dict_lookup _ _ _ _ Hd). intros x ->.
  apply elem_of_unique. unfold dropna. apply list_elem_of_omap. by exists (Some x).
Qed.

Lemma np_vstack_rows (f : option string -> row) (col : list (option string)) n :
  (forall cell, length (f cell) = n) -> col <> [] ->
  np_vstack ((fun cell => Some (f cell)) <$> col) = Ok (f <$> col).
Proof.
  intros Hlen Hne. unfold np_vstack.
  rewrite <- list_fmap_compose.
  change (default [None] ∘ (fun cell => Some (f cell))) with f.
  destruct col as [|c t]; [done|]. rewrite fmap_cons.
  rewrite (proj2 (forallb_forall _ _)); [done|].
  intros r (c' & -> & _)%list_elem_of_In%list_elem_of_fmap.
  rewrite !Hlen. apply Nat.eqb_refl.
Qed.

Lemma set_rows_nan_rows vocab (col : list (option string)) :
  set_rows_nan (isna <$> col) (similarity_row vocab <$> col)
  = similarity_row vocab <$> col.
Proof.
  unfold set_rows_nan. induction col as [|c t IH]; [done|].
  rewrite !fmap_cons. cbn [zip_with]. rewrite IH. f_equal.
  destruct c; simpl; [done|]. unfold nan_row. by rewrite length_replicate.
Qed.

(** Whatever the policy, the block has one row per cell: the similarity
    vector of a present value, an all-missing row for a missing one. It is
    not built, with a ValueError, for a column without rows and when a
    present value meets an empty vocabulary. *)
Lemma encode_column_spec hm vocab (col : list (option string)) :
  encode_column hm vocab col
  = if decide (col <> [] /\ (vocab <> [] \/ dropna col = []))
    then Ok (similarity_row vocab <$> col) else Raise ValueError.
Proof.
  unfold encode_column.
  destruct (decide (col <> [] /\ (vocab <> [] \/ dropna col = [])))
    as [[Hne Hok]|Hno].
  - rewrite column_encoder_dict_Ok.
    2:{ destruct Hok as [?| ->]; [by left|by right]. }
    rewrite bind_Ok, (series_map_rows vocab col).
    2:{ apply column_encoder_dict_Ok.
        destruct Hok as [?| ->]; [by left|by right]. }
    rewrite (np_vstack_rows _ _ (length vocab))
      by (done || apply length_similarity_row).
    rewrite bind_Ok. destruct (decide (hm = ignore)); [|done].
    by rewrite set_rows_nan_rows.
  - destruct col as [|c col]; [done|].
    destruct vocab as [|v vocab]; [|destruct Hno; split; [done|by left]].
    destruct (dropna (c :: col)) as [|x t] eqn:Hdrop;
      [destruct Hno; split; [done|by right]|].
    simpl unique. by rewrite column_encoder_dict_Raise.
Qed.

Lemma encode_column_rows hm vocab (col : list (option string)) :
  col <> [] -> vocab <> [] \/ dropna col = [] ->
  encode_column hm vocab col = Ok (similarity_row vocab <$> col).
Proof. intros Hne Hok. by rewrite encode_column_spec, decide_True. Qed.

Lemma encode_column_inv hm vocab (col : list (option string)) M :
  encode_column hm vocab col = Ok M ->
  col <> [] /\ M = similarity_row vocab <$> col.
Proof.
  rewrite encode_column_spec. destruct (decide _) as [[Hne _]|]; [|done].
  by intros [= <-].
Qed.

(** *** The loop of [transform] *)

Lemma fillna_idemp {A} (v : A) (s : list (option A)) :
  fillna v (fillna v s) = fillna v s.
Proof. unfold fillna. rewrite <- list_fmap_compose. done. Qed.

Lemma df_get_obj_cons (X : DataFrame) n c var :
  df_get_obj ((n, c) :: X) var
  = if decide (n = var)
    then match c with ObjCol cells => Ok cells | NumCol _ => Raise TypeError end
    else df_get_obj X var.
Proof. unfold df_get_obj. simpl. by destruct (decide (n = var)). Qed.

Lemma df_get_obj_set (X : DataFrame) var cells col :
  df_get_obj X var = Ok col ->
  df_get_obj (df_set X var (ObjCol cells)) var = Ok cells.
Proof.
  induction X as [|[n c] X IH]; [done|].
  rewrite df_get_obj_cons. simpl. destruct (decide (n = var)) as [->|Hne].
  - intros _. rewrite df_get_obj_cons. by rewrite decide_True.
  - intros Hget. rewrite df_get_obj_cons, decide_False by done. by apply IH.
Qed.

Lemma imputed_frame_refl vars X : imputed_frame vars X X.
Proof. apply Forall2_same_length_lookup_2; [done|]. intros; simplify_eq. auto. Qed.

Lemma imputed_frame_get vars X X1 var col1 :
  imputed_frame vars X X1 -> df_get_obj X1 var = Ok col1 ->
  exists col, df_get_obj X var = Ok col /\
    (col1 = col \/ col1 = fillna ""%string col).
Proof.
  induction 1 as [|[n c] [n1 c1] X X1 [Hn Hc] HF IH]; [done|].
  simpl in Hn, Hc. subst n1. rewrite !df_get_obj_cons.
  destruct (decide (n = var)) as [->|Hne]; [|done].
  destruct Hc as [->|(_ & cells & -> & ->)].
  - destruct c; [|done]. intros [= ->]. eauto.
  - intros [= <-]. eauto.
Qed.

Lemma imputed_frame_set vars X X1 var col1 :
  imputed_frame vars X X1 -> var ∈ vars -> df_get_obj X1 var = Ok col1 ->
  imputed_frame vars X (df_set X1 var (ObjCol (fillna ""%string col1))).
Proof.
  intros HF Hvar. induction HF as [|[n c] [n1 c1] X X1 [Hn Hc] HF IH]; [done|].
  simpl in Hn, Hc. subst n1. rewrite df_get_obj_cons. simpl.
  destruct (decide (n = var)) as [->|Hne].
  - intros Hget. constructor; [|done]. split; [done|]. right. split; [done|].
    destruct Hc as [->|(_ & cells & -> & ->)].
    + destruct c; [|done]. injection Hget as ->. eauto.
    + injection Hget as <-. exists cells. by rewrite fillna_idemp.
  - intros Hget. constructor; [by split|]. by apply IH.
Qed.

Lemma policy_col_fillna hm (col : list (option string)) :
  hm = impute -> policy_col hm (fillna ""%string col) = policy_col hm col.
Proof. intros ->. unfold policy_col. simpl. apply fillna_idemp. Qed.

Lemma transform_loop_spec hm d vars_all X vars X1 acc X2 blocks :
  transform_loop hm d vars X1 acc = Ok (X2, blocks) ->
  (forall v, v ∈ vars -> v ∈ vars_all) ->
  imputed_frame vars_all X X1 -> (hm <> impute -> X1 = X) ->
  imputed_frame vars_all X X2 /\ (hm <> impute -> X2 = X) /\
  exists new, blocks = acc ++ new /\ Forall2 (is_block hm d X) vars new.
Proof.
  revert X1 acc. induction vars as [|var rest IH]; intros X1 acc Hloop Hsub HF Heq.
  { injection Hloop as <- <-. repeat split; [done..|].
    exists []. by rewrite app_nil_r. }
  cbn [transform_loop] in Hloop.
  destruct (df_get_obj X1 var) as [col0|] eqn:Hcol0; [|done].
  rewrite bind_Ok in Hloop.
  set (X1' := if decide (hm = impute)
              then df_set X1 var (ObjCol (fillna ""%string col0)) else X1) in *.
  assert (df_get_obj X1' var = Ok (policy_col hm col0)) as Hcol.
  { subst X1'. unfold policy_col. destruct (decide (hm = impute)); [|done].
    by eapply df_get_obj_set. }
  rewrite Hcol, bind_Ok in Hloop.
  destruct (dict_get d var) as [vocab|] eqn:Hvocab; [|done].
  rewrite bind_Ok in Hloop.
  destruct (encode_column hm vocab (policy_col hm col0)) as [encoded|] eqn:Henc;
    [|done].
  apply encode_column_inv in Henc as [Hne ->]. rewrite bind_Ok in Hloop.
  assert (imputed_frame vars_all X X1') as HF'.
  { subst X1'. destruct (decide (hm = impute)); [|done].
    apply imputed_frame_set; [done| |done]. apply Hsub. by left. }
  assert (hm <> impute -> X1' = X) as Heq'.
  { intros Hhm. subst X1'. rewrite decide_False by done. by apply Heq. }
  destruct (IH _ _ Hloop) as (HF2 & Heq2 & new & -> & Hnew);
    [intros v Hv; apply Hsub; by right|done|done|].
  split; [done|]. split; [done|].
  exists ((similarity_row vocab <$> policy_col hm col0) :: new).
  split; [by rewrite <- app_assoc|]. constructor; [|done].
  destruct (imputed_frame_get _ _ _ _ _ HF Hcol0) as (col & Hget & Hcases).
  exists col, vocab. split; [done|].
  assert (policy_col hm col0 = policy_col hm col) as Hpc.
  { destruct (decide (hm = impute)) as [Hhm|Hhm].
    - destruct Hcases as [->| ->]; [done|]. by apply policy_col_fillna.
    - specialize (Heq Hhm). subst X1. congruence. }
  rewrite <- Hpc. split; [|split; [|done]].
  - intros ->. apply Hne. rewrite Hpc. unfold policy_col.
    by destruct (decide (hm = impute)).
  - unfold dict_get in Hvocab. by destruct (d !! var); simplify_eq.
Qed.

(** The stages of a [transform] that returns. *)
Lemma transform_inv enc d X Y :
  encoder_dict_ enc = Some d -> transform enc X = Ok Y ->
  exists X1 blocks names M X2,
    transform_loop (handle_missing enc) d (variables_ enc) X [] = Ok (X1, blocks) /\
    _get_new_features_name d (variables_ enc) = Ok names /\
    np_hstack blocks = Ok M /\
    df_loc_set X1 names M = Ok X2 /\
    df_drop X2 (variables_ enc) = Ok Y.
Proof.
  intros Hd. unfold transform, check_is_fitted. rewrite Hd, bind_Ok.
  destruct (if decide (handle_missing enc = error)
            then _check_contains_na X (variables_ enc) else Ok ()); [|done].
  rewrite bind_Ok.
  destruct (transform_loop _ d _ X []) as [[X1 blocks]|] eqn:Hloop; [|done].
  rewrite bind_Ok.
  destruct (_get_new_features_name d _) as [names|] eqn:Hnames; [|done].
  rewrite bind_Ok.
  destruct (np_hstack blocks) as [M|] eqn:HM; [|done]. rewrite bind_Ok.
  destruct (df_loc_set X1 names M) as [X2|] eqn:Hset; [|done]. rewrite bind_Ok.
  intros HY. by exists X1, blocks, names, M, X2.
Qed.

Lemma transform_blocks enc d X Y :
  encoder_dict_ enc = Some d -> transform enc X = Ok Y ->
  exists X1 blocks,
    transform_loop (handle_missing enc) d (variables_ enc) X [] = Ok (X1, blocks) /\
    imputed_frame (variables_ enc) X X1 /\
    (handle_missing enc <> impute -> X1 = X) /\
    Forall2 (is_block (handle_missing enc) d X) (variables_ enc) blocks.
Proof.
  intros Hd HY.
  destruct (transform_inv enc d X Y Hd HY) as (X1 & blocks & _ & _ & _ & Hloop & _).
  exists X1, blocks. split; [done|].
  destruct (transform_loop_spec _ _ (variables_ enc) X _ _ _ _ _ Hloop)
    as (HF & Heq & new & -> & Hnew); auto using imputed_frame_refl.
Qed.

(** *** The [error] policy *)

Lemma df_get_is_Ok (X : DataFrame) var :
  var ∈ columns X -> exists c, df_get X var = Ok c.
Proof.
  induction X as [|[n c] X IH]; simpl.
  { by intros ?%elem_of_nil. }
  destruct (decide (n = var)); [by eauto|].
  intros [?|?]%elem_of_cons; [done|]. by apply IH.
Qed.

Lemma mapM_df_get (X : DataFrame) vars :
  (forall var, var ∈ vars -> var ∈ columns X) ->
  exists cols, mapM (df_get X) vars = Ok cols /\
    forall var c, var ∈ vars -> df_get X var = Ok c -> c ∈ cols.
Proof.
  induction vars as [|v rest IH]; intros Hsub.
  { exists []. split; [done|]. by intros ?? ?%elem_of_nil. }
  destruct (df_get_is_Ok X v) as (c & Hc); [apply Hsub; by left|].
  destruct IH as (cols & Hcols & Hin); [intros; apply Hsub; by right|].
  exists (c :: cols). split.
  - simpl. by rewrite Hc, bind_Ok, Hcols, bind_Ok.
  - intros var c' [->|?]%elem_of_cons Hget.
    + assert (c' = c) as -> by congruence. by left.
    + right. by eapply Hin.
Qed.

Lemma check_contains_na_raises (X : DataFrame) vars :
  (forall var, var ∈ vars -> var ∈ columns X) ->
  (exists var c, var ∈ vars /\ df_get X var = Ok c /\ column_has_na c = true) ->
  _check_contains_na X vars = Raise ValueError.
Proof.
  intros Hsub (var & c & Hvar & Hget & Hna).
  destruct (mapM_df_get X vars Hsub) as (cols & Hcols & Hin).
  unfold _check_contains_na. rewrite Hcols, bind_Ok.
  assert (existsb column_has_na cols = true) as ->; [|done].
  apply existsb_exists. exists c. split; [|done].
  apply list_elem_of_In. by eapply Hin.
Qed.

Lemma fit_preserves `{ValueSort} enc X enc' :
  fit enc X = Ok enc' ->
  handle_missing enc' = handle_missing enc /\
  variables_ enc' = variables_ enc /\
  top_categories enc' = top_categories enc /\
  is_Some (encoder_dict_ enc').
Proof.
  unfold fit. intros Hfit.
  destruct (match handle_missing enc with
            | error => _ | impute => _ | ignore => _ end) as [d|]; [|done].
  injection Hfit as <-. simpl. eauto.
Qed.

(** C6. Under [handle_missing = 'error'], if a selected column of [X] has a
    missing entry then [fit] on [X] raises the data-validation error, and so
    does [transform] on [X] by an encoder fitted on any other frame (one
    whose selected columns had no missing entry); neither returns a result. *)
Theorem error_policy_rejects_missing `{ValueSort} enc X :
  handle_missing enc = error ->
  (forall var, var ∈ variables_ enc -> var ∈ columns X) ->
  (exists var c, var ∈ variables_ enc /\ df_get X var = Ok c /\
                 column_has_na c = true) ->
  fit enc X = Raise ValueError /\
  forall X0 enc', fit enc X0 = Ok enc' -> transform enc' X = Raise ValueError.
Proof.
  intros Hhm Hsub Hna.
  pose proof (check_contains_na_raises X (variables_ enc) Hsub Hna) as Hcheck.
  split.
  - unfold fit. by rewrite Hhm, Hcheck.
  - intros X0 enc' Hfit.
    destruct (fit_preserves enc X0 enc' Hfit) as (Hhm' & Hvars & _ & d & Hd).
    unfold transform, check_is_fitted.
    rewrite Hd, bind_Ok, Hhm', Hhm, Hvars.
    rewrite decide_True by done. by rewrite Hcheck.
Qed.

Lemma error_policy_rejects_missing_witness :
  fit (H := first_seen_sort) TestData.enc_error TestData.df_na
    = Raise ValueError /\
  forall X0 enc', fit (H := first_seen_sort) TestData.enc_error X0 = Ok enc' ->
    transform enc' TestData.df_na = Raise ValueError.
Proof.
  apply (error_policy_rejects_missing (H := first_seen_sort)
           TestData.enc_error TestData.df_na).
  - reflexivity.
  - intros var Hvar. apply list_elem_of_singleton in Hvar as ->.
    simpl. set_solver.
  - eexists "var_A"%string, _. split; [set_solver|]. split; reflexivity.
Defined.

(** *** The constructors *)

Lemma discretiser_init_non_int bins super_init checked_variables :
  isinstance_int bins = false ->
  Discretiser.init bins super_init checked_variables = Raise ValueError.
Proof. unfold Discretiser.init. by intros ->. Qed.

Lemma discretiser_init_int bins variables :
  isinstance_int bins = true ->
  Discretiser.init bins (Ok ()) (Ok variables)
  = Ok (Discretiser.Params bins variables).
Proof. unfold Discretiser.init. by intros ->. Qed.

Lemma encoder_init_bad_policy top hm super_init :
  is_missing_policy hm = false -> init top hm super_init = Raise ValueError.
Proof. unfold init. intros ->. by destruct (_ && _). Qed.

Lemma encoder_init_truthy_non_int top hm super_init :
  truthy top = true -> isinstance_int top = false ->
  init top hm super_init = Raise ValueError.
Proof. unfold init. by intros -> ->. Qed.

Lemma encoder_init_valid top hm :
  top = PyNone \/ isinstance_int top = true ->
  is_missing_policy hm = true ->
  init top hm (Ok ()) = Ok (Params top hm).
Proof.
  unfold init. intros Htop ->.
  destruct Htop as [->| ->]; [done|]. by rewrite andb_false_r.
Qed.

(** C9, at the failing inputs. The encoder's constructor accepts the empty
    string and the float 0.0 as [top_categories]: the guard tests the truth
    value of the argument before its type, so a non-integer that is falsy is
    never rejected. *)
Theorem encoder_init_accepts_falsy_non_integer :
  isinstance_int (PyStr "") = false /\
  init (PyStr "") (PyStr "impute") (Ok ())
    = Ok (Params (PyStr "") (PyStr "impute")) /\
  isinstance_int (PyFloat 0) = false /\
  init (PyFloat 0) (PyStr "impute") (Ok ())
    = Ok (Params (PyFloat 0) (PyStr "impute")).
Proof. repeat split. Qed.

(** *** The frame returned by [transform] *)

Lemma df_get_obj_columns (X : DataFrame) var col :
  df_get_obj X var = Ok col -> var ∈ columns X.
Proof.
  induction X as [|[n c] X IH]; [done|].
  rewrite df_get_obj_cons. unfold columns. rewrite fmap_cons. simpl.
  destruct (decide (n = var)) as [->|Hne]; [by left|].
  intros Hget. right. by apply IH.
Qed.

Lemma imputed_frame_filter vars (X X1 : DataFrame) :
  imputed_frame vars X X1 ->
  filter (fun nc => nc.1 ∉ vars) X1 = filter (fun nc => nc.1 ∉ vars) X.
Proof.
  induction 1 as [|[n c] [n1 c1] X X1 [Hn Hc] HF IH]; [done|].
  simpl in Hn, Hc. subst n1. rewrite !filter_cons. simpl.
  destruct (decide (n ∉ vars)) as [Hnin|Hin]; [|done].
  destruct Hc as [->|[Hin _]]; [by rewrite IH|done].
Qed.

Lemma filter_all {A} (P : A -> Prop) `{forall x, Decision (P x)} (l : list A) :
  Forall P l -> filter P l = l.
Proof.
  induction 1 as [|x l Hx Hl IH]; [done|].
  by rewrite filter_cons, decide_True, IH.
Qed.

Lemma df_set_fresh (X : DataFrame) n c :
  n ∉ columns X -> df_set X n c = X ++ [(n, c)].
Proof.
  induction X as [|[n0 c0] X IH]; [done|].
  unfold columns. rewrite fmap_cons. simpl.
  intros [Hne Hnin]%not_elem_of_cons.
  rewrite decide_False by done. by rewrite IH.
Qed.

Lemma foldl_df_set_fresh (g : nat * string -> column) (l : list (nat * string))
    (X : DataFrame) :
  NoDup (l.*2) -> (forall jn, jn ∈ l -> jn.2 ∉ columns X) ->
  foldl (fun X' jn => df_set X' jn.2 (g jn)) X l
  = X ++ ((fun jn => (jn.2, g jn)) <$> l).
Proof.
  revert X. induction l as [|jn l IH]; intros X Hnd Hfresh.
  { by rewrite app_nil_r. }
  rewrite fmap_cons in Hnd. apply NoDup_cons in Hnd as [Hjn Hnd].
  cbn [foldl]. rewrite df_set_fresh by (apply Hfresh; by left).
  rewrite IH; [by rewrite <- app_assoc|done|].
  intros jn' Hjn'. unfold columns. rewrite fmap_app. simpl.
  intros [Hin|Hin%list_elem_of_singleton]%elem_of_app.
  - by apply (Hfresh jn'); [right|].
  - apply Hjn. rewrite <- Hin. by apply list_elem_of_fmap_2.
Qed.

Lemma imap_pair_snd {A} (l : list A) : (imap pair l).*2 = l.
Proof.
  rewrite fmap_imap. change (fun n : nat => snd ∘ pair n) with (fun (_ : nat) (x : A) => x).
  induction l as [|x l IH]; [done|]. rewrite imap_cons. f_equal. exact IH.
Qed.

Lemma new_features_length d vars names :
  _get_new_features_name d vars = Ok names ->
  length names = sum_list ((fun var => length (default [] (d !! var))) <$> vars).
Proof.
  revert names. induction vars as [|v rest IH]; intros names; simpl.
  { by intros [= <-]. }
  unfold dict_get. destruct (d !! v) as [vocab|]; [|done]. rewrite bind_Ok.
  destruct (_get_new_features_name d rest) as [names'|]; [|done].
  rewrite bind_Ok. intros [= <-].
  rewrite length_app, length_fmap, (IH names') by done. done.
Qed.

Lemma columns_imap {A} (g : nat -> string -> A) (names : list string) :
  (imap (fun j n => (n, g j n)) names).*1 = names.
Proof.
  rewrite fmap_imap. unfold compose. simpl.
  revert g. induction names as [|n names IH]; intros g; [done|].
  rewrite imap_cons. f_equal. apply (IH (g ∘ S)).
Qed.

(** The frame [transform] returns when no generated name clashes: the
    non-encoded columns, then column [j] of the stacked blocks under the
    [j]-th generated name. *)
Lemma df_loc_set_inv (X : DataFrame) names (M : matrix) X2 :
  df_loc_set X names M = Ok X2 ->
  NoDup names /\
  X2 = foldl (fun X' jn => df_set X' jn.2 (NumCol (matrix_column M jn.1)))
             X (imap pair names).
Proof.
  unfold df_loc_set. destruct (decide (NoDup names)); [|done].
  destruct (forallb _ M); [|done]. by intros [= <-].
Qed.

Lemma transform_frame_explicit enc d X Y names :
  encoder_dict_ enc = Some d ->
  _get_new_features_name d (variables_ enc) = Ok names ->
  NoDup names -> (forall n, n ∈ names -> n ∉ columns X) ->
  transform enc X = Ok Y ->
  exists blocks M,
    Forall2 (is_block (handle_missing enc) d X) (variables_ enc) blocks /\
    np_hstack blocks = Ok M /\
    Y = filter (fun nc => nc.1 ∉ variables_ enc) X
        ++ imap (fun j n => (n, NumCol (matrix_column M j))) names.
Proof.
  intros Hd Hnames Hnd Hfresh HY.
  destruct (transform_inv enc d X Y Hd HY)
    as (X1 & blocks & names' & M & X2 & Hloop & Hnames' & HM & Hset & Hdrop).
  assert (names' = names) as -> by congruence.
  destruct (transform_blocks enc d X Y Hd HY)
    as (X1' & blocks' & Hloop' & HF & _ & HB).
  assert (X1' = X1) as -> by congruence.
  assert (blocks' = blocks) as -> by congruence.
  exists blocks, M. split; [done|]. split; [done|].
  assert (columns X1 = columns X) as Hcols.
  { clear -HF. unfold columns.
    induction HF as [|[n c] [n1 c1] ?? [Hn _] _ IH]; [done|].
    rewrite !fmap_cons. simpl in *. by rewrite Hn, IH. }
  apply df_loc_set_inv in Hset as [_ ->].
  rewrite foldl_df_set_fresh in Hdrop.
  2:{ by rewrite imap_pair_snd. }
  2:{ intros jn Hjn. rewrite Hcols. apply Hfresh.
      rewrite <- (imap_pair_snd names). by apply list_elem_of_fmap_2. }
  unfold df_drop in Hdrop. destruct (decide _); [|done]. injection Hdrop as <-.
  rewrite fmap_imap. unfold compose. simpl.
  set (new := imap (fun j n => (n, NumCol (matrix_column M j))) names).
  assert (columns new = names) as Hnew by apply columns_imap.
  rewrite filter_app, (imputed_frame_filter _ _ _ HF). f_equal.
  apply filter_all, Forall_forall. intros nc Hnc Hin.
  assert (nc.1 ∈ names) as Hname.
  { rewrite <- Hnew. by apply list_elem_of_fmap_2. }
  apply (Hfresh _ Hname).
  apply list_elem_of_lookup in Hin as (k & Hk).
  destruct (Forall2_lookup_l _ _ _ _ _ HB Hk) as (B & _ & col & _ & Hcol & _).
  by eapply df_get_obj_columns.
Qed.

(** C3, as amended. For a fitted encoder and a transform input in which the
    names of the similarity columns are pairwise distinct and none of them is
    a column of the input: the returned frame consists of the non-encoded
    input columns, in their order and with their values, followed by the
    similarity columns; its column count is the number of non-encoded input
    columns plus the sum of the vocabulary sizes of the encoded variables;
    no encoded input column is left in it. *)
Theorem transform_frame enc d X Y names :
  encoder_dict_ enc = Some d ->
  _get_new_features_name d (variables_ enc) = Ok names ->
  NoDup names -> (forall n, n ∈ names -> n ∉ columns X) ->
  transform enc X = Ok Y ->
  exists new_cols : DataFrame,
    Y = filter (fun nc => nc.1 ∉ variables_ enc) X ++ new_cols /\
    columns new_cols = names /\
    length Y = (length (filter (fun nc => nc.1 ∉ variables_ enc) X)
                + sum_list ((fun var => length (default [] (d !! var)))
                              <$> variables_ enc))%nat /\
    forall var, var ∈ variables_ enc -> var ∉ columns Y.
Proof.
  intros Hd Hnames Hnd Hfresh HY.
  destruct (transform_frame_explicit enc d X Y names Hd Hnames Hnd Hfresh HY)
    as (blocks & M & HB & _ & ->).
  set (new := imap (fun j n => (n, NumCol (matrix_column M j))) names).
  assert (columns new = names) as Hnew by apply columns_imap.
  exists new. split; [done|]. split; [done|]. split.
  - rewrite length_app. f_equal.
    rewrite <- (new_features_length d _ names Hnames), <- Hnew.
    unfold columns. by rewrite length_fmap.
  - intros var Hvar (nc & -> & Hin)%list_elem_of_fmap.
    apply elem_of_app in Hin as [Hin|Hin].
    + by apply list_elem_of_filter in Hin as [Hnin _].
    + assert (nc.1 ∈ names) as Hname.
      { rewrite <- Hnew. by apply list_elem_of_fmap_2. }
      apply (Hfresh _ Hname).
      apply list_elem_of_lookup in Hvar as (k & Hk).
      destruct (Forall2_lookup_l _ _ _ _ _ HB Hk) as (B & _ & col & _ & Hcol & _).
      by eapply df_get_obj_columns.
Qed.

Lemma transform_frame_witness :
  exists new_cols : DataFrame,
    TestData.df_na_encoded
    = filter (fun nc => nc.1 ∉ ["var_A"%string]) TestData.df_na ++ new_cols /\
    columns new_cols = ["var_A_B"; "var_A_A"]%string /\
    length TestData.df_na_encoded
    = (length (filter (fun nc => nc.1 ∉ ["var_A"%string]) TestData.df_na)
       + sum_list ((fun var => length (default []
           (({["var_A"%string := ["B"; "A"]%string]}
              : gmap string (list string)) !! var)))
           <$> ["var_A"%string]))%nat /\
    forall var, var ∈ ["var_A"%string] -> var ∉ columns TestData.df_na_encoded.
Proof.
  apply (transform_frame TestData.enc_ignore_fitted
           {["var_A"%string := ["B"; "A"]%string]} TestData.df_na
           TestData.df_na_encoded ["var_A_B"; "var_A_A"]%string).
  - reflexivity.
  - vm_compute. reflexivity.
  - apply (bool_decide_unpack _). vm_compute. reflexivity.
  - intros n Hn. apply (bool_decide_unpack _).
    apply elem_of_cons in Hn as [->|Hn];
      [|apply list_elem_of_singleton in Hn as ->]; vm_compute; reflexivity.
  - vm_compute. reflexivity.
Defined.

(** C3, counterexample. The frame has the categorical column [var_A] and a
    numeric column that is already called [var_A_B]. The encoder fitted on
    it has the vocabulary ["B"] for [var_A], so the one similarity column is
    named [var_A_B] too: [transform] overwrites the numeric column with the
    scores and returns a frame of one column, where the count of the claim
    is 1 non-encoded column + 1 vocabulary entry = 2, and the non-encoded
    column has lost its values. *)
Lemma transform_overwrites_existing_column :
  fit (H := first_seen_sort) (Encoder None ignore ["var_A"%string] None)
      TestData.df_clash
    = Ok TestData.enc_clash_fitted /\
  transform TestData.enc_clash_fitted TestData.df_clash
    = Ok [("var_A_B"%string, NumCol [Some 1%Q])] /\
  length (filter (fun nc => nc.1 ∉ variables_ TestData.enc_clash_fitted)
                 TestData.df_clash) = 1%nat /\
  df_get TestData.df_clash "var_A_B" = Ok (NumCol [Some 7%Q]).
Proof. repeat split; vm_compute; reflexivity. Qed.

(** *** The cells of the similarity columns *)

Lemma foldl_zip_app_lookup (rest : list matrix) (B0 : matrix) (i : nat) r0 rs :
  B0 !! i = Some r0 -> Forall2 (fun B r => B !! i = Some r) rest rs ->
  foldl (zip_with app) B0 rest !! i = Some (r0 ++ concat rs).
Proof.
  intros H0 HF. revert B0 r0 H0.
  induction HF as [|B r rest rs HB HF IH]; intros B0 r0 H0; simpl.
  { by rewrite app_nil_r. }
  rewrite (IH _ (r0 ++ r)); [by rewrite <- app_assoc|].
  by rewrite lookup_zip_with, H0, HB.
Qed.

Lemma np_hstack_lookup (blocks : list matrix) (M : matrix) (i : nat) rs :
  np_hstack blocks = Ok M -> Forall2 (fun B r => B !! i = Some r) blocks rs ->
  M !! i = Some (concat rs).
Proof.
  unfold np_hstack. intros HM HF.
  destruct HF as [|B r rest rs HB HF]; [done|].
  destruct (forallb _ rest); [|done]. injection HM as <-.
  by apply foldl_zip_app_lookup.
Qed.

Lemma np_hstack_length (blocks : list matrix) (M : matrix) :
  np_hstack blocks = Ok M -> Forall (fun B => length B = length M) blocks.
Proof.
  unfold np_hstack. destruct blocks as [|B0 rest]; [done|].
  destruct (forallb _ rest) eqn:Hall; [|done]. intros [= <-].
  assert (Forall (fun B => length B = length B0) rest) as Hrest.
  { apply Forall_forall. intros B HB%list_elem_of_In.
    rewrite forallb_forall in Hall. by apply Nat.eqb_eq, Hall. }
  clear Hall.
  assert (length (foldl (zip_with app) B0 rest) = length B0) as Hlen.
  { revert B0 Hrest. induction rest as [|B rest IH]; intros B0 Hrest; [done|].
    apply Forall_cons in Hrest as [HB Hrest]. simpl.
    rewrite IH; rewrite length_zip_with; [lia|].
    eapply Forall_impl; [exact Hrest|]. simpl. lia. }
  rewrite Hlen. by constructor.
Qed.

(** Where the columns of the [k]-th variable start. *)
Lemma concat_lookup_offset {A B} (w : B -> nat) (vs : list B) (rs : list (list A))
    (k j : nat) r :
  Forall2 (fun v r => length r = w v) vs rs ->
  rs !! k = Some r -> (j < length r)%nat ->
  concat rs !! (sum_list (w <$> take k vs) + j)%nat = r !! j.
Proof.
  intros HF. revert k. induction HF as [|v r' vs rs Hlen HF IH]; intros k Hk Hj.
  { done. }
  destruct k as [|k]; simpl in *.
  - injection Hk as ->. by rewrite lookup_app_l.
  - rewrite lookup_app_r by lia.
    rewrite <- (IH k Hk Hj). f_equal. unfold fmap. lia.
Qed.

Lemma new_features_lookup d vars names (k j : nat) var vocab c :
  _get_new_features_name d vars = Ok names ->
  vars !! k = Some var -> d !! var = Some vocab -> vocab !! j = Some c ->
  names !! (sum_list ((fun v => length (default [] (d !! v))) <$> take k vars) + j)%nat
  = Some (feature_name var c).
Proof.
  revert k names. induction vars as [|v rest IH]; intros k names; [done|].
  simpl. unfold dict_get. destruct (d !! v) as [vocab0|] eqn:Hv0; [|done].
  rewrite bind_Ok.
  destruct (_get_new_features_name d rest) as [names'|]; [|done].
  rewrite bind_Ok. intros [= <-] Hk Hv Hj.
  destruct k as [|k]; simpl in *.
  - injection Hk as ->. assert (vocab0 = vocab) as -> by congruence.
    rewrite lookup_app_l by (rewrite length_fmap; by eapply lookup_lt_Some).
    by rewrite list_lookup_fmap, Hj.
  - rewrite Hv0. simpl. rewrite lookup_app_r by (rewrite length_fmap; lia).
    rewrite length_fmap.
    rewrite <- (IH k names' eq_refl Hk Hv Hj). f_equal. unfold fmap. lia.
Qed.

Lemma df_get_imap (g : nat -> column) (names : list string) (p : nat) name :
  NoDup names -> names !! p = Some name ->
  df_get (imap (fun j n => (n, g j)) names) name = Ok (g p).
Proof.
  revert g p. induction names as [|n names IH]; intros g p Hnd Hp; [done|].
  apply NoDup_cons in Hnd as [Hn Hnd]. rewrite imap_cons. simpl.
  destruct p as [|p]; simpl in Hp.
  - injection Hp as ->. by rewrite decide_True.
  - rewrite decide_False.
    + apply (IH (g ∘ S)); done.
    + intros ->. apply Hn. by eapply list_elem_of_lookup_2.
Qed.

Lemma df_get_app_fresh (X new : DataFrame) name :
  name ∉ columns X -> df_get (X ++ new) name = df_get new name.
Proof.
  induction X as [|[n c] X IH]; [done|].
  unfold columns. rewrite fmap_cons. simpl.
  intros [Hne Hnin]%not_elem_of_cons.
  rewrite decide_False by done. by apply IH.
Qed.

Lemma similarity_row_lookup vocab (cell : option string) (j : nat) c :
  vocab !! j = Some c ->
  similarity_row vocab cell !! j = Some ((fun x => _gpm_fast x c) <$> cell).
Proof.
  intros Hj. destruct cell as [x|]; simpl.
  - unfold _gpm_fast_vec. by rewrite !list_lookup_fmap, Hj.
  - apply lookup_replicate_2. by eapply lookup_lt_Some.
Qed.

Lemma length_policy_col hm (col : list (option string)) :
  length (policy_col hm col) = length col.
Proof.
  unfold policy_col, fillna. destruct (decide _); [|done]. by rewrite length_fmap.
Qed.

(** When no generated name clashes, the returned frame has, for the
    variable [var] and its vocabulary entry [c], a column named after them
    whose cell in row [i] is the score of the value of row [i] against [c],
    and is missing if that value is missing. *)
Lemma transform_cells enc d X Y names (k j : nat) var vocab c col :
  encoder_dict_ enc = Some d ->
  _get_new_features_name d (variables_ enc) = Ok names ->
  NoDup names -> (forall n, n ∈ names -> n ∉ columns X) ->
  transform enc X = Ok Y ->
  variables_ enc !! k = Some var -> d !! var = Some vocab ->
  vocab !! j = Some c -> df_get_obj X var = Ok col ->
  exists cells,
    df_get Y (feature_name var c) = Ok (NumCol cells) /\
    length cells = length col /\
    forall (i : nat) cell,
      policy_col (handle_missing enc) col !! i = Some cell ->
      cells !! i = Some ((fun x => _gpm_fast x c) <$> cell).
Proof.
  intros Hd Hnames Hnd Hfresh HY Hk Hv Hj Hcol.
  destruct (transform_frame_explicit enc d X Y names Hd Hnames Hnd Hfresh HY)
    as (blocks & M & HB & HM & ->).
  set (w := fun v : string => length (default [] (d !! v))).
  set (p := (sum_list (w <$> take k (variables_ enc)) + j)%nat).
  pose proof (new_features_lookup d _ names k j var vocab c Hnames Hk Hv Hj)
    as Hp. fold w p in Hp.
  exists (matrix_column M p). split; [|split].
  - rewrite df_get_app_fresh.
    + by apply (df_get_imap (fun j => NumCol (matrix_column M j))).
    + intros (nc & Hname & [_ Hin]%list_elem_of_filter)%list_elem_of_fmap.
      eapply Hfresh; [by eapply list_elem_of_lookup_2|].
      rewrite Hname. by apply list_elem_of_fmap_2.
  - destruct (Forall2_lookup_l _ _ _ _ _ HB Hk)
      as (B & HBk & col' & vocab' & Hcol' & _ & _ & ->).
    assert (col' = col) as -> by congruence.
    unfold matrix_column. rewrite length_fmap.
    pose proof (np_hstack_length _ _ HM) as Hlen.
    rewrite Forall_forall in Hlen.
    rewrite <- (Hlen _ (list_elem_of_lookup_2 _ _ _ HBk)).
    by rewrite length_fmap, length_policy_col.
  - intros i cell Hcell.
    pose proof (np_hstack_length _ _ HM) as Hlen.
    rewrite Forall_forall in Hlen.
    destruct (Forall2_lookup_l _ _ _ _ _ HB Hk)
      as (Bk & HBk & col' & vocab' & Hcol' & _ & Hv' & ->).
    assert (col' = col) as -> by congruence.
    assert (vocab' = vocab) as -> by congruence.
    assert (i < length M)%nat as Hi.
    { rewrite <- (Hlen _ (list_elem_of_lookup_2 _ _ _ HBk)), length_fmap.
      by eapply lookup_lt_Some. }
    set (rs := (fun B : matrix => default [] (B !! i)) <$> blocks).
    assert (Forall2 (fun (B : matrix) r => B !! i = Some r) blocks rs) as Hrows.
    { subst rs. apply Forall2_fmap_r, Forall_Forall2_diag, Forall_forall.
      intros B HBin. unfold compose. specialize (Hlen B HBin).
      destruct (lookup_lt_is_Some_2 B i) as [r Hr]; [lia|]. by rewrite Hr. }
    assert (Forall2 (fun v (r : list (option Q)) => length r = w v)
                    (variables_ enc) rs) as Hwidths.
    { apply Forall2_same_length_lookup_2.
      { subst rs. rewrite length_fmap. by eapply Forall2_length. }
      intros k' v r Hv0 Hr. subst rs.
      rewrite list_lookup_fmap in Hr.
      destruct (Forall2_lookup_l _ _ _ _ _ HB Hv0)
        as (B & HB' & col0 & vocab0 & _ & _ & Hd0 & ->).
      rewrite HB' in Hr. injection Hr as <-.
      specialize (Hlen _ (list_elem_of_lookup_2 _ _ _ HB')).
      rewrite length_fmap in Hlen.
      destruct (lookup_lt_is_Some_2 (policy_col (handle_missing enc) col0) i)
        as [cell0 Hcell0]; [lia|].
      rewrite list_lookup_fmap, Hcell0. simpl.
      subst w. simpl. rewrite Hd0. apply length_similarity_row. }
    assert (rs !! k = Some (similarity_row vocab cell)) as Hrk.
    { subst rs. rewrite list_lookup_fmap, HBk. simpl.
      by rewrite list_lookup_fmap, Hcell. }
    unfold matrix_column.
    rewrite list_lookup_fmap, (np_hstack_lookup _ _ _ _ HM Hrows). simpl.
    subst p. rewrite (concat_lookup_offset w _ _ k j _ Hwidths Hrk).
    + by rewrite (similarity_row_lookup _ _ _ _ Hj).
    + rewrite length_similarity_row. by eapply lookup_lt_Some.
Qed.

(** *** Missing entries under the [ignore] policy *)

(** C7. Under [handle_missing = 'ignore'], in the similarity block that
    [transform] builds for an encoded variable, every row whose value is
    missing is missing in every column of the block, and every row with a
    present value holds the similarity scores of that value against the
    vocabulary. In the returned frame (when no generated column name
    clashes) the column of the variable and a vocabulary entry [c] is
    missing in exactly the rows where the variable is missing, and holds the
    score against [c] elsewhere. *)
Theorem ignore_missing_rows enc d X Y :
  handle_missing enc = ignore -> encoder_dict_ enc = Some d ->
  transform enc X = Ok Y ->
  (exists blocks,
     transform_loop ignore d (variables_ enc) X [] = Ok (X, blocks) /\
     forall (k : nat) var, variables_ enc !! k = Some var ->
       exists col vocab M,
         df_get_obj X var = Ok col /\ d !! var = Some vocab /\
         blocks !! k = Some M /\ length M = length col /\
         forall i : nat,
           (col !! i = Some None ->
            M !! i = Some (replicate (length vocab) None)) /\
           (forall x, col !! i = Some (Some x) ->
            M !! i = Some (Some <$> _gpm_fast_vec x vocab))) /\
  (forall names,
     _get_new_features_name d (variables_ enc) = Ok names ->
     NoDup names -> (forall n, n ∈ names -> n ∉ columns X) ->
     forall (k j : nat) var vocab c col,
       variables_ enc !! k = Some var -> d !! var = Some vocab ->
       vocab !! j = Some c -> df_get_obj X var = Ok col ->
       exists cells,
         df_get Y (feature_name var c) = Ok (NumCol cells) /\
         length cells = length col /\
         forall i : nat,
           (col !! i = Some None -> cells !! i = Some None) /\
           (forall x, col !! i = Some (Some x) ->
            cells !! i = Some (Some (_gpm_fast x c)))).
Proof.
  intros Hhm Hd HY. split.
  - destruct (transform_blocks enc d X Y Hd HY)
      as (X1 & blocks & Hloop & _ & Heq & HB).
    rewrite Hhm in *. rewrite (Heq ltac:(done)) in Hloop.
    exists blocks. split; [done|]. intros k var Hk.
    destruct (Forall2_lookup_l _ _ _ _ _ HB Hk)
      as (M & HM & col & vocab & Hcol & _ & Hv & ->).
    eexists col, vocab, _. split; [done|]. split; [done|]. split; [done|].
    unfold policy_col. rewrite decide_False by done.
    split; [by rewrite length_fmap|].
    intros i. split; [intros Hi|intros x Hi]; by rewrite list_lookup_fmap, Hi.
  - intros names Hnames Hnd Hfresh k j var vocab c col Hk Hv Hj Hcol.
    destruct (transform_cells enc d X Y names k j var vocab c col)
      as (cells & Hget & Hlen & Hcells); try done.
    exists cells. split; [done|]. split; [done|].
    rewrite Hhm in Hcells. unfold policy_col in Hcells.
    rewrite decide_False in Hcells by done.
    intros i. split; [intros Hi|intros x Hi]; by rewrite (Hcells _ _ Hi).
Qed.

Lemma ignore_missing_rows_witness :
  exists cells,
    df_get TestData.df_na_encoded (feature_name "var_A" "A") = Ok (NumCol cells) /\
    length cells = length [Some "B"; None; Some "A"; Some "B"]%string /\
    forall i : nat,
      ([Some "B"; None; Some "A"; Some "B"]%string !! i = Some None ->
       cells !! i = Some None) /\
      (forall x, [Some "B"; None; Some "A"; Some "B"]%string !! i = Some (Some x) ->
       cells !! i = Some (Some (_gpm_fast x "A"))).
Proof.
  eapply (proj2 (ignore_missing_rows TestData.enc_ignore_fitted
                   {["var_A"%string := ["B"; "A"]%string]}
                   TestData.df_na TestData.df_na_encoded
                   eq_refl eq_refl ltac:(vm_compute; reflexivity))
            ["var_A_B"; "var_A_A"]%string
            ltac:(vm_compute; reflexivity)
            ltac:(apply (bool_decide_unpack _); vm_compute; reflexivity)
            _ 0%nat 1%nat "var_A"%string ["B"; "A"]%string "A"%string
            [Some "B"; None; Some "A"; Some "B"]%string).
  - reflexivity.
  - reflexivity.
  - reflexivity.
  - reflexivity.
  Unshelve.
  intros n Hn. apply (bool_decide_unpack _).
  apply elem_of_cons in Hn as [->|Hn];
    [|apply list_elem_of_singleton in Hn as ->]; vm_compute; reflexivity.
Defined.

(** *** Similarity of a value with itself *)

(** C8. For every string [v], [_gpm_fast(v, v)] is exactly 1; hence, in the
    similarity block that [transform] builds for an encoded variable whose
    vocabulary holds [v] at position [j], every row holding [v] has score
    exactly 1 in column [j], and in the returned frame (when no generated
    column name clashes) every row holding [v] has score exactly 1 in the
    column named after the variable and [v]. *)
Theorem self_similarity_is_one (v : string) :
  _gpm_fast v v = 1%Q /\
  forall enc d X Y, encoder_dict_ enc = Some d -> transform enc X = Ok Y ->
    (exists X1 blocks,
       transform_loop (handle_missing enc) d (variables_ enc) X []
         = Ok (X1, blocks) /\
       forall (k j : nat) var vocab,
         variables_ enc !! k = Some var -> d !! var = Some vocab ->
         vocab !! j = Some v ->
         exists col M,
           df_get_obj X var = Ok col /\ blocks !! k = Some M /\
           forall i : nat,
             policy_col (handle_missing enc) col !! i = Some (Some v) ->
             exists r, M !! i = Some r /\ r !! j = Some (Some 1%Q)) /\
    (forall names,
       _get_new_features_name d (variables_ enc) = Ok names ->
       NoDup names -> (forall n, n ∈ names -> n ∉ columns X) ->
       forall (k j : nat) var vocab col,
         variables_ enc !! k = Some var -> d !! var = Some vocab ->
         vocab !! j = Some v -> df_get_obj X var = Ok col ->
         exists cells,
           df_get Y (feature_name var v) = Ok (NumCol cells) /\
           forall i : nat,
             policy_col (handle_missing enc) col !! i = Some (Some v) ->
             cells !! i = Some (Some 1%Q)).
Proof.
  assert (_gpm_fast v v = 1%Q) as Hself.
  { unfold _gpm_fast, quick_ratio.
    by rewrite quick_ratio_matches_self, calculate_ratio_full. }
  split; [done|]. intros enc d X Y Hd HY. split.
  - destruct (transform_blocks enc d X Y Hd HY)
      as (X1 & blocks & Hloop & _ & _ & HB).
    exists X1, blocks. split; [done|]. intros k j var vocab Hk Hv Hj.
    destruct (Forall2_lookup_l _ _ _ _ _ HB Hk)
      as (M & HM & col & vocab' & Hcol & _ & Hv' & ->).
    assert (vocab' = vocab) as -> by congruence.
    eexists col, _. split; [done|]. split; [done|]. intros i Hi.
    exists (similarity_row vocab (Some v)).
    split; [by rewrite list_lookup_fmap, Hi|].
    unfold similarity_row, _gpm_fast_vec.
    rewrite !list_lookup_fmap, Hj. simpl. by rewrite Hself.
  - intros names Hnames Hnd Hfresh k j var vocab col Hk Hv Hj Hcol.
    destruct (transform_cells enc d X Y names k j var vocab v col)
      as (cells & Hget & _ & Hcells); try done.
    exists cells. split; [done|]. intros i Hi.
    rewrite (Hcells _ _ Hi). simpl. by rewrite Hself.
Qed.

Lemma self_similarity_is_one_witness :
  _gpm_fast "B" "B" = 1%Q /\
  exists cells,
    df_get TestData.df_na_encoded (feature_name "var_A" "B") = Ok (NumCol cells) /\
    forall i : nat,
      policy_col ignore [Some "B"; None; Some "A"; Some "B"]%string !! i
        = Some (Some "B"%string) ->
      cells !! i = Some (Some 1%Q).
Proof.
  split; [exact (proj1 (self_similarity_is_one "B"))|].
  eapply (proj2 (proj2 (self_similarity_is_one "B")
                   TestData.enc_ignore_fitted
                   {["var_A"%string := ["B"; "A"]%string]}
                   TestData.df_na TestData.df_na_encoded
                   eq_refl ltac:(vm_compute; reflexivity))
            ["var_A_B"; "var_A_A"]%string
            ltac:(vm_compute; reflexivity)
            ltac:(apply (bool_decide_unpack _); vm_compute; reflexivity)
            _ 0%nat 0%nat "var_A"%string ["B"; "A"]%string
            [Some "B"; None; Some "A"; Some "B"]%string).
  - reflexivity.
  - reflexivity.
  - reflexivity.
  - reflexivity.
  Unshelve.
  intros n Hn. apply (bool_decide_unpack _).
  apply elem_of_cons in Hn as [->|Hn];
    [|apply list_elem_of_singleton in Hn as ->]; vm_compute; reflexivity.
Defined.

End EncoderProofs.

(** * Further properties *)

(** ** IncreasingWidthDiscretiser: edge cases and the shape of the edges *)

Module DiscretiserEdges.
Import Discretiser DiscretiserProofs.
Local Open Scope R_scope.

(** What a [fit] that returns has stored. *)
Lemma fit_loop_inv (X : gmap string (list R)) bins vars d0 d :
  fit_loop X bins vars d0 = Ok d ->
  forall var,
    (var ∈ vars -> exists col l,
        X !! var = Some col /\ fit_var col bins = Ok l /\ d !! var = Some l)
    /\ (var ∉ vars -> d !! var = d0 !! var).
Proof.
  revert d0. induction vars as [|v rest IH]; intros d0 Hfit var.
  { injection Hfit as <-. split; [by intros ?%elem_of_nil|done]. }
  simpl in Hfit. destruct (X !! v) as [col|] eqn:HX; [|done].
  destruct (fit_var col bins) as [l|] eqn:Hl; [|done].
  rewrite bind_Ok in Hfit. specialize (IH _ Hfit). split.
  - intros Hvar. destruct (decide (var ∈ rest)) as [Hin|Hnin].
    { by apply IH. }
    apply elem_of_cons in Hvar as [->|?]; [|done].
    exists col, l. split; [done|]. split; [done|].
    rewrite (proj2 (IH v) Hnin). apply lookup_insert_eq.
  - intros [Hne Hnin]%not_elem_of_cons.
    rewrite (proj2 (IH var) Hnin). by apply lookup_insert_ne.
Qed.

(** X1. After a [fit] that returns, [binner_dict_] has an entry for every
    fitted variable and for no other name. *)
Theorem binner_dict_keys (X : gmap string (list R)) bins vars d :
  fit X bins vars = Ok d -> forall var, is_Some (d !! var) <-> var ∈ vars.
Proof.
  intros Hfit var. destruct (fit_loop_inv X bins vars ∅ d Hfit var) as [Hin Hnin].
  destruct (decide (var ∈ vars)) as [Hvar|Hvar].
  - destruct (Hin Hvar) as (col & l & _ & _ & ->). by split.
  - rewrite (Hnin Hvar), lookup_empty. split; [by intros [? ?]|done].
Qed.

Lemma fit_single (v : string) col bins l :
  fit_var col bins = Ok l -> fit {[v := col]} bins [v] = Ok {[v := l]}.
Proof.
  intros Hl. unfold fit. simpl.
  by rewrite lookup_singleton_eq, Hl, bind_Ok, insert_empty.
Qed.

Lemma binner_dict_keys_witness :
  is_Some (({["x"%string := [NegInf; Fin 5; PosInf]]}
              : gmap string (list float)) !! "x"%string)
  <-> "x"%string ∈ ["x"%string].
Proof.
  apply (binner_dict_keys {["x"%string := [5]]} 2 ["x"%string]
           {["x"%string := [NegInf; Fin 5; PosInf]]}).
  apply fit_single, constant_column_two_bins.
Defined.

(** X2. The constructor accepts [bins = 0] (it is an int), and [fit] then
    raises ZeroDivisionError at its first variable: [1.0 / self.bins]. *)
Theorem zero_bins_fails_at_fit (X : gmap string (list R)) var rest col variables :
  X !! var = Some col ->
  init (PyInt 0) (Ok ()) (Ok variables) = Ok (Params (PyInt 0) variables) /\
  fit X 0 (var :: rest) = Raise ZeroDivisionError.
Proof.
  intros HX. split; [done|]. unfold fit. simpl. by rewrite HX.
Qed.

Lemma zero_bins_fails_at_fit_witness :
  init (PyInt 0) (Ok ()) (Ok PyNone) = Ok (Params (PyInt 0) PyNone) /\
  fit {["x"%string := [5]]} 0 ["x"%string] = Raise ZeroDivisionError.
Proof.
  apply (zero_bins_fails_at_fit {["x"%string := [5]]} "x"%string [] [5] PyNone).
  apply lookup_singleton_eq.
Defined.

(** X3. With a negative [bins] (the constructor accepts any int) no power is
    generated: the array is the minimum alone, and the two assignments hit
    the same cell, so what [fit] stores is the one-entry list [+inf]. *)
Theorem negative_bins_boundaries col bins :
  (bins < 0)%Z -> fit_var col bins = Ok [PosInf].
Proof.
  intros Hbins. unfold fit_var, float_div_one.
  destruct (Z.eq_dec bins 0%Z); [lia|]. rewrite bind_Ok. cbv beta zeta.
  unfold np_arange_from_one.
  replace (Z.to_nat bins) with 0%nat by lia. done.
Qed.

Lemma negative_bins_boundaries_witness : fit_var [1; 2; 4] (-3) = Ok [PosInf].
Proof. apply (negative_bins_boundaries [1; 2; 4] (-3)). lia. Defined.

(** *** Non-constant columns *)




End DiscretiserEdges.

(** ** _gpm_fast: the score as a function of the two strings *)

Module SimilarityScore.
Import Encoder EncoderProofs.

Lemma count_app `{EqDecision A} (x : A) (l k : list A) :
  count x (l ++ k) = (count x l + count x k)%nat.
Proof. unfold count. by rewrite filter_app, length_app. Qed.

(** Changing a summand at one point of a duplicate-free index list. *)
Lemma sum_list_update `{EqDecision A} (chars : list A) (f g : A -> nat) e :
  NoDup chars -> e ∈ chars -> (forall x, x <> e -> g x = f x) ->
  (sum_list (g <$> chars) + f e = sum_list (f <$> chars) + g e)%nat.
Proof.
  intros Hnd He Hfg. induction chars as [|y chars IH]; [by apply elem_of_nil in He|].
  apply NoDup_cons in Hnd as [Hy Hnd]. rewrite !fmap_cons. simpl.
  destruct (decide (y = e)) as [->|Hne].
  - assert (g <$> chars = f <$> chars) as ->; [|lia].
    apply Forall_fmap_ext, Forall_forall. intros x Hx. apply Hfg. by intros ->.
  - apply elem_of_cons in He as [->|He]; [done|].
    specialize (IH Hnd He). rewrite (Hfg y) by done. lia.
Qed.

Lemma sum_list_zero {A} (chars : list A) :
  sum_list ((fun _ : A => 0%nat) <$> chars) = 0%nat.
Proof. induction chars as [|y chars IH]; [done|]. by rewrite fmap_cons. Qed.

Lemma sum_count (chars a : list ascii) :
  NoDup chars -> (forall x, x ∈ a -> x ∈ chars) ->
  sum_list ((fun x => count x a) <$> chars) = length a.
Proof.
  intros Hnd. induction a as [|e a IH]; intros Hsub.
  - apply sum_list_zero.
  - pose proof (sum_list_update chars (fun x => count x a)
                  (fun x => count x (e :: a)) e
                  Hnd ltac:(apply Hsub; by left)) as Hupd.
    simpl in Hupd. rewrite (count_cons e e), decide_True in Hupd by done.
    rewrite IH in Hupd by (intros; apply Hsub; by right).
    simpl. rewrite <- Nat.add_1_r.
    apply (Nat.add_cancel_r _ _ (count e a)). rewrite Hupd; [lia|].
    intros x Hx. rewrite count_cons. by rewrite decide_False.
Qed.

(** The loop of [quick_ratio], started after a prefix [p] of [a]. *)
Lemma quick_ratio_fold (b chars q p : list ascii) avail matches :
  NoDup chars -> (forall x, x ∈ p ++ q -> x ∈ chars) ->
  (forall x, available (fullbcount b) avail x
             = (Z.of_nat (count x b) - Z.of_nat (count x p))%Z) ->
  matches = Z.of_nat (sum_list ((fun x => count x p `min` count x b) <$> chars)) ->
  (foldl (quick_ratio_step (fullbcount b)) (avail, matches) q).2
  = Z.of_nat (sum_list ((fun x => count x (p ++ q) `min` count x b) <$> chars)).
Proof.
  intros Hnd. revert p avail matches.
  induction q as [|e q IH]; intros p avail matches Hsub Hav Hm.
  { by rewrite app_nil_r. }
  cbn [foldl quick_ratio_step].
  replace (p ++ e :: q) with ((p ++ [e]) ++ q) in * by (by rewrite <- app_assoc).
  apply IH; [done|..].
  - intros x. unfold available in *. specialize (Hav x).
    rewrite count_app, (count_cons x e). change (count x []) with 0%nat.
    destruct (decide (e = x)) as [->|Hne].
    + rewrite lookup_insert_eq, Hav. lia.
    + rewrite lookup_insert_ne by done. rewrite Hav. lia.
  - pose proof (sum_list_update chars
        (fun x => count x p `min` count x b)
        (fun x => count x (p ++ [e]) `min` count x b) e Hnd) as Hupd.
    simpl in Hupd. rewrite Hav, Hm.
    assert (count e (p ++ [e]) = S (count e p)) as Hce.
    { rewrite count_app, (count_cons e e), decide_True by done.
      change (count e []) with 0%nat. lia. }
    rewrite Hce in Hupd.
    specialize (Hupd ltac:(apply Hsub; set_solver)).
    assert (forall x, x <> e ->
              count x (p ++ [e]) `min` count x b = count x p `min` count x b)
      as Hother.
    { intros x Hx. rewrite count_app, (count_cons x e), decide_False by done.
      change (count x []) with 0%nat. by rewrite Nat.add_0_r. }
    specialize (Hupd Hother).
    destruct (Z.ltb_spec 0 (Z.of_nat (count e b) - Z.of_nat (count e p))); lia.
Qed.

(** [matches] is the size of the intersection of the two strings seen as
    multisets of characters. *)
Lemma quick_ratio_matches_sum (a b chars : list ascii) :
  NoDup chars -> (forall x, x ∈ a -> x ∈ chars) ->
  quick_ratio_matches a b
  = Z.of_nat (sum_list ((fun x => count x a `min` count x b) <$> chars)).
Proof.
  intros Hnd Hsub. unfold quick_ratio_matches.
  apply (quick_ratio_fold b chars a [] ∅ 0%Z Hnd); [done|..].
  - intros x. unfold available. rewrite lookup_empty, fullbcount_lookup.
    change (count x []) with 0%nat. lia.
  - change (fun x => count x [] `min` count x b) with (fun _ : ascii => 0%nat).
    by rewrite sum_list_zero.
Qed.

Lemma sum_list_le {A} (chars : list A) (f g : A -> nat) :
  (forall x, f x <= g x)%nat ->
  (sum_list (f <$> chars) <= sum_list (g <$> chars))%nat.
Proof.
  intros Hfg. induction chars as [|y chars IH]; [done|].
  rewrite !fmap_cons. simpl. specialize (Hfg y). lia.
Qed.

(** The characters of both strings, each once. *)
Lemma matches_common (a b : list ascii) :
  quick_ratio_matches a b
  = Z.of_nat (sum_list ((fun x => count x a `min` count x b)
                          <$> unique (a ++ b))).
Proof.
  apply quick_ratio_matches_sum; [apply NoDup_unique|].
  intros x Hx. apply elem_of_unique, elem_of_app. by left.
Qed.

Lemma matches_le_length (a b : list ascii) :
  (0 <= quick_ratio_matches a b <= Z.of_nat (length a))%Z /\
  (quick_ratio_matches a b <= Z.of_nat (length b))%Z.
Proof.
  rewrite matches_common.
  assert (forall x, x ∈ a ++ b -> x ∈ unique (a ++ b)) as Hcover
    by (intros x; apply elem_of_unique).
  split; [split; [lia|]|]; apply inj_le.
  - rewrite <- (sum_count (unique (a ++ b)) a); [|apply NoDup_unique|].
    + apply sum_list_le. intros x. lia.
    + intros x Hx. apply Hcover, elem_of_app. by left.
  - rewrite <- (sum_count (unique (a ++ b)) b); [|apply NoDup_unique|].
    + apply sum_list_le. intros x. lia.
    + intros x Hx. apply Hcover, elem_of_app. by right.
Qed.

Lemma Pos_of_nat_S (n : nat) : Z.pos (Pos.of_nat (S n)) = Z.of_nat (S n).
Proof. by rewrite <- Pos.of_nat_succ, Zpos_P_of_succ_nat, Nat2Z.inj_succ. Qed.

Lemma quick_ratio_matches_comm (a b : list ascii) :
  quick_ratio_matches a b = quick_ratio_matches b a.
Proof.
  assert (forall c, c ∈ a ++ b -> c ∈ unique (a ++ b)) as Hcover
    by (intros c; apply elem_of_unique).
  rewrite (quick_ratio_matches_sum a b (unique (a ++ b)));
    [|apply NoDup_unique|intros c Hc; apply Hcover, elem_of_app; by left].
  rewrite (quick_ratio_matches_sum b a (unique (a ++ b)));
    [|apply NoDup_unique|intros c Hc; apply Hcover, elem_of_app; by right].
  do 2 f_equal. apply Forall_fmap_ext, Forall_forall. intros c _. lia.
Qed.

Lemma calculate_ratio_bounds (m : Z) (n : nat) :
  (0 <= m)%Z -> (2 * m <= Z.of_nat n)%Z ->
  (0 <= calculate_ratio m n)%Q /\ (calculate_ratio m n <= 1)%Q.
Proof.
  intros Hm Hn. destruct n as [|n]; [done|].
  unfold calculate_ratio. rewrite !Qred_correct.
  unfold Qle. cbn [Qnum Qden]. rewrite Pos_of_nat_S. lia.
Qed.

(** The value of a ratio over a positive length. *)
Lemma calculate_ratio_Qeq (m : Z) (n : nat) (q : Q) :
  calculate_ratio m (S n) = q ->
  (2 * m * Z.pos (Qden q) = Qnum q * Z.of_nat (S n))%Z.
Proof.
  unfold calculate_ratio. intros <-.
  pose proof (Qred_correct (2 * m # Pos.of_nat (S n))) as Hred.
  unfold Qeq in Hred. cbn [Qnum Qden] in Hred.
  rewrite Pos_of_nat_S in Hred. lia.
Qed.

Lemma count_pos `{EqDecision A} (x : A) (l : list A) :
  (0 < count x l)%nat <-> x ∈ l.
Proof.
  induction l as [|y l IH].
  { change (count x []) with 0%nat. rewrite elem_of_nil. lia. }
  rewrite count_cons, elem_of_cons. destruct (decide (y = x)) as [->|Hne].
  - split; [by left|lia].
  - rewrite IH. split; [by right|]. by intros [->|?].
Qed.

Lemma count_zero `{EqDecision A} (x : A) (l : list A) :
  count x l = 0%nat <-> x ∉ l.
Proof. rewrite <- count_pos. lia. Qed.

Lemma count_Permutation `{EqDecision A} (x : A) (l k : list A) :
  l ≡ₚ k -> count x l = count x k.
Proof. intros Hperm. unfold count. by rewrite Hperm. Qed.

(** Two lists with the same number of occurrences of every element are
    rearrangements of each other. *)
Lemma Permutation_count `{EqDecision A} (l k : list A) :
  (forall x, count x l = count x k) -> l ≡ₚ k.
Proof.
  revert k. induction l as [|e l IH]; intros k Hcount.
  - destruct k as [|y k]; [done|]. specialize (Hcount y).
    rewrite count_cons, decide_True in Hcount by done. discriminate.
  - assert (e ∈ k) as He.
    { apply count_pos. rewrite <- Hcount, count_cons, decide_True by done. lia. }
    apply elem_of_Permutation in He as [k' Hk]. rewrite Hk.
    apply Permutation_skip, IH. intros x.
    specialize (Hcount x). rewrite (count_Permutation x k _ Hk) in Hcount.
    rewrite !count_cons in Hcount. destruct (decide (e = x)); lia.
Qed.

Lemma sum_list_le_eq {A} (chars : list A) (f g : A -> nat) :
  (forall x, f x <= g x)%nat ->
  sum_list (f <$> chars) = sum_list (g <$> chars) ->
  forall x, x ∈ chars -> f x = g x.
Proof.
  intros Hfg. induction chars as [|y chars IH]; intros Hsum x Hx.
  { by apply elem_of_nil in Hx. }
  rewrite !fmap_cons in Hsum. simpl in Hsum.
  pose proof (sum_list_le chars f g Hfg) as Hle. pose proof (Hfg y) as Hy.
  apply elem_of_cons in Hx as [->|Hx]; [lia|]. apply IH; [lia|done].
Qed.

Lemma sum_list_eq_0 {A} (chars : list A) (f : A -> nat) :
  sum_list (f <$> chars) = 0%nat <-> forall x, x ∈ chars -> f x = 0%nat.
Proof.
  induction chars as [|y chars IH]; [set_solver|].
  rewrite fmap_cons. simpl. split.
  - intros Hsum x [->|Hx]%elem_of_cons; [lia|]. apply IH; [lia|done].
  - intros Hall. rewrite (Hall y) by (by left).
    apply IH. intros x Hx. apply Hall. by right.
Qed.

(** X7. The score does not depend on the order of its two arguments. *)
Theorem gpm_fast_symmetric (x y : string) : _gpm_fast x y = _gpm_fast y x.
Proof.
  unfold _gpm_fast, quick_ratio.
  by rewrite quick_ratio_matches_comm, Nat.add_comm.
Qed.

Lemma quick_ratio_bounds (a b : list ascii) :
  (0 <= quick_ratio a b)%Q /\ (quick_ratio a b <= 1)%Q.
Proof.
  unfold quick_ratio. destruct (matches_le_length a b) as [[H0 Ha] Hb].
  apply calculate_ratio_bounds; lia.
Qed.

(** X8. The score of any two strings lies between 0 and 1. *)
Theorem gpm_fast_bounds (x y : string) :
  (0 <= _gpm_fast x y)%Q /\ (_gpm_fast x y <= 1)%Q.
Proof. apply quick_ratio_bounds. Qed.

Lemma quick_ratio_Permutation (a b : list ascii) :
  a ≡ₚ b -> quick_ratio a b = 1%Q.
Proof.
  intros Hperm. unfold quick_ratio.
  rewrite matches_common, <- (Permutation_length Hperm).
  assert ((fun c => count c a `min` count c b) <$> unique (a ++ b)
          = (fun c => count c a) <$> unique (a ++ b)) as ->.
  { apply Forall_fmap_ext, Forall_forall. intros c _.
    rewrite (count_Permutation c a b Hperm). lia. }
  rewrite sum_count; [apply calculate_ratio_full|apply NoDup_unique|].
  intros c Hc. apply elem_of_unique, elem_of_app. by left.
Qed.

Lemma quick_ratio_one (a b : list ascii) :
  quick_ratio a b = 1%Q -> a ≡ₚ b.
Proof.
  unfold quick_ratio. intros Hq.
  destruct (matches_le_length a b) as [[H0 Ha] Hb].
  destruct (length a + length b)%nat as [|n] eqn:Hn.
  { destruct a, b; try done; simpl in Hn; lia. }
  apply calculate_ratio_Qeq in Hq. cbn [Qnum Qden] in Hq.
  assert (quick_ratio_matches a b = Z.of_nat (length a) /\
          quick_ratio_matches a b = Z.of_nat (length b)) as [Hma Hmb] by lia.
  set (chars := unique (a ++ b)).
  assert (NoDup chars) as Hnd by apply NoDup_unique.
  assert (forall c, c ∈ a ++ b -> c ∈ chars) as Hcover
    by (intros c; apply elem_of_unique).
  assert (forall c, c ∈ a -> c ∈ chars) as Hca
    by (intros c Hc; apply Hcover, elem_of_app; by left).
  assert (forall c, c ∈ b -> c ∈ chars) as Hcb
    by (intros c Hc; apply Hcover, elem_of_app; by right).
  rewrite (quick_ratio_matches_sum a b chars Hnd Hca) in Hma, Hmb.
  apply Nat2Z.inj in Hma, Hmb.
  rewrite <- (sum_count chars a Hnd Hca) in Hma.
  rewrite <- (sum_count chars b Hnd Hcb) in Hmb.
  apply Permutation_count. intros c.
  destruct (decide (c ∈ chars)) as [Hc|Hc].
  - pose proof (sum_list_le_eq chars (fun x => count x a `min` count x b)
                  (fun x => count x a) ltac:(intros z; simpl; lia) Hma c Hc) as H1.
    pose proof (sum_list_le_eq chars (fun x => count x a `min` count x b)
                  (fun x => count x b) ltac:(intros z; simpl; lia) Hmb c Hc) as H2.
    simpl in H1, H2. lia.
  - assert (c ∉ a) as Hna by (intros H; by apply Hc, Hca).
    assert (c ∉ b) as Hnb by (intros H; by apply Hc, Hcb).
    apply count_zero in Hna, Hnb. lia.
Qed.

(** X9. The score is exactly 1 if and only if the two strings are made of
    the same characters with the same multiplicities, in whatever order: a
    score of 1 does not single out the equal string. *)
Theorem gpm_fast_one_iff_anagram (x y : string) :
  _gpm_fast x y = 1%Q <-> list_ascii_of_string x ≡ₚ list_ascii_of_string y.
Proof.
  unfold _gpm_fast. split; [apply quick_ratio_one|apply quick_ratio_Permutation].
Qed.

Lemma quick_ratio_zero (a b : list ascii) :
  quick_ratio a b = 0%Q <->
  (a <> [] \/ b <> []) /\ forall c, c ∈ a -> c ∉ b.
Proof.
  unfold quick_ratio.
  set (chars := unique (a ++ b)).
  assert (NoDup chars) as Hnd by apply NoDup_unique.
  assert (forall c, c ∈ a -> c ∈ chars) as Hca
    by (intros c Hc; apply elem_of_unique, elem_of_app; by left).
  rewrite (quick_ratio_matches_sum a b chars Hnd Hca).
  destruct (length a + length b)%nat as [|n] eqn:Hn.
  { destruct a, b; try (simpl in Hn; lia). simpl. split; [done|].
    intros [[?|?] _]; done. }
  assert (a <> [] \/ b <> []) as Hne.
  { destruct a; [right|left; done]. destruct b; [simpl in Hn; lia|done]. }
  split.
  - intros Hq. split; [done|]. apply calculate_ratio_Qeq in Hq.
    cbn [Qnum Qden] in Hq.
    assert (sum_list ((fun x => count x a `min` count x b) <$> chars) = 0%nat)
      as Hsum by lia.
    intros c Hc Hcb. apply Hca in Hc as Hcc.
    pose proof (proj1 (sum_list_eq_0 chars _) Hsum c Hcc) as Hmin. simpl in Hmin.
    apply count_pos in Hc, Hcb. lia.
  - intros [_ Hdisj].
    assert (sum_list ((fun x => count x a `min` count x b) <$> chars) = 0%nat)
      as ->.
    { apply sum_list_eq_0. intros c _. simpl.
      destruct (decide (c ∈ a)) as [Hc|Hc].
      - apply Hdisj, count_zero in Hc. lia.
      - apply count_zero in Hc. lia. }
    unfold calculate_ratio. change 0%Q with (Qred 0). by apply Qred_complete.
Qed.

Lemma list_ascii_of_string_nil (x : string) :
  list_ascii_of_string x = [] <-> x = ""%string.
Proof. by destruct x. Qed.

(** X10. The score is exactly 0 if and only if the two strings share no
    character and are not both empty (two empty strings score 1). In
    particular the empty string, which stands for a missing value under
    the [impute] policy, scores 0 against every non-empty string. *)
Theorem gpm_fast_zero_iff_disjoint (x y : string) :
  _gpm_fast x y = 0%Q <->
  (x <> ""%string \/ y <> ""%string) /\
  forall c, c ∈ list_ascii_of_string x -> c ∉ list_ascii_of_string y.
Proof.
  unfold _gpm_fast. rewrite quick_ratio_zero, !list_ascii_of_string_nil. done.
Qed.

End SimilarityScore.

(** ** The encoder outside the configurations of the specification *)

Module EncoderEdges.
Import Encoder EncoderProofs SimilarityScore.
Local Open Scope string_scope.

(** X11. A zero or negative [top_categories] passes the constructor. [fit]
    then learns an empty vocabulary for 0, and for [k < 0] the ranking by
    descending count without its [-k] last entries; which values those are
    among equal counts is left to the sort. *)
Theorem nonpositive_top_categories `{ValueSort} enc X enc' var k :
  sorts_by_count ->
  top_categories enc = Some k -> (k <= 0)%Z ->
  fit enc X = Ok enc' -> var ∈ variables_ enc ->
  init (PyInt k) (PyStr "impute") (Ok ()) = Ok (Params (PyInt k) (PyStr "impute")) /\
  exists d col r,
    encoder_dict_ enc' = Some d /\
    df_get_obj X var = Ok col /\
    descending_ranking (normalise (handle_missing enc) col) r /\
    d !! var = Some (if decide (k = 0%Z) then []
                     else take (length r - Z.to_nat (- k)) r).
Proof.
  intros Hsort Htop Hk Hfit Hvar. split.
  { unfold init. cbn [truthy isinstance_int negb]. by rewrite andb_false_r. }
  destruct (fit_learns enc X enc' var Hfit Hvar) as (d & col & Hd & Hcol & Hv).
  eexists d, col, _. split; [done|]. split; [done|]. split.
  - rewrite <- normalise_dropna. by apply value_counts_descending.
  - rewrite Hv, Htop. unfold head. destruct (decide (k = 0%Z)) as [->|Hne].
    + done.
    + by rewrite (proj2 (Z.leb_gt 0 k)) by lia.
Qed.

Lemma nonpositive_top_categories_witness :
  init (PyInt (-1)) (PyStr "impute") (Ok ())
    = Ok (Params (PyInt (-1)) (PyStr "impute")) /\
  exists d col r,
    encoder_dict_ (Encoder (Some (-1)%Z) ignore ["var_A"]
                     (Some {["var_A" := ["B"]]})) = Some d /\
    df_get_obj TestData.df_na "var_A" = Ok col /\
    descending_ranking (normalise ignore col) r /\
    d !! "var_A" = Some (if decide ((-1)%Z = 0%Z) then []
                         else take (length r - Z.to_nat (- (-1))) r).
Proof.
  apply (nonpositive_top_categories (H := first_seen_sort)
           (Encoder (Some (-1)%Z) ignore ["var_A"] None) TestData.df_na
           (Encoder (Some (-1)%Z) ignore ["var_A"] (Some {["var_A" := ["B"]]}))
           "var_A" (-1)%Z).
  - apply first_seen_sort_ok.
  - reflexivity.
  - lia.
  - vm_compute. reflexivity.
  - simpl. set_solver.
Defined.

Lemma feature_name_eq var c1 c2 :
  feature_name var c1 = feature_name var c2 ->
  c1 = c2 \/ (c1 = "" /\ c2 = "nan") \/ (c1 = "nan" /\ c2 = "").
Proof.
  unfold feature_name. intros Heq.
  destruct (decide (c1 = "")) as [->|H1], (decide (c2 = "")) as [->|H2].
  - by left.
  - apply String.app_inj in Heq. cbv in Heq. injection Heq as <-. right. by left.
  - apply String.app_inj in Heq. cbv in Heq. injection Heq as ->. right. by right.
  - apply String.app_inj in Heq. cbv in Heq. injection Heq as ->. by left.
Qed.

(** X12. The similarity columns of one variable get pairwise different
    names except in one case: when its vocabulary holds both the empty
    string (an imputed missing value) and the string "nan", both columns
    are named [var_nan]. *)
Theorem feature_names_distinct_iff (d : gmap string (list string)) var vocab :
  d !! var = Some vocab -> NoDup vocab ->
  exists names, _get_new_features_name d [var] = Ok names /\
    (NoDup names <-> ~ ("" ∈ vocab /\ "nan" ∈ vocab)).
Proof.
  intros Hd Hnd. exists (feature_name var <$> vocab). split.
  { simpl. unfold dict_get. rewrite Hd, bind_Ok. simpl. by rewrite app_nil_r. }
  split.
  - intros Hnames [[i Hi]%list_elem_of_lookup [j Hj]%list_elem_of_lookup].
    assert (i = j) as ->.
    { eapply (proj1 (NoDup_alt _) Hnames).
      - by rewrite list_lookup_fmap, Hi.
      - by rewrite list_lookup_fmap, Hj. }
    congruence.
  - intros Hboth. apply NoDup_fmap_2_strong; [|done].
    intros c1 c2 H1 H2 Heq.
    destruct (feature_name_eq _ _ _ Heq) as [?|[[-> ->]|[-> ->]]]; [done|..];
      by destruct Hboth.
Qed.

Lemma feature_names_distinct_iff_witness :
  exists names,
    _get_new_features_name {["var_A" := [""; "nan"; "B"]]} ["var_A"] = Ok names /\
    (NoDup names <-> ~ ("" ∈ [""; "nan"; "B"] /\ "nan" ∈ [""; "nan"; "B"])).
Proof.
  apply (feature_names_distinct_iff {["var_A" := [""; "nan"; "B"]]} "var_A").
  - reflexivity.
  - apply (bool_decide_unpack _). vm_compute. reflexivity.
Defined.

Lemma columns_df_set (X : DataFrame) n c m :
  m ∈ columns (df_set X n c) <-> m ∈ columns X \/ m = n.
Proof.
  unfold columns. induction X as [|[n0 c0] X IH]; simpl.
  - rewrite list_elem_of_singleton, elem_of_nil. tauto.
  - destruct (decide (n0 = n)) as [->|Hne]; rewrite !fmap_cons, !elem_of_cons; simpl.
    + tauto.
    + rewrite IH. tauto.
Qed.

Lemma imputed_frame_columns vars (X X1 : DataFrame) :
  imputed_frame vars X X1 -> columns X1 = columns X.
Proof.
  unfold columns. induction 1 as [|[n c] [n1 c1] ?? [Hn _] _ IH]; [done|].
  rewrite !fmap_cons. simpl in *. by rewrite Hn, IH.
Qed.

Lemma columns_foldl_df_set (g : nat * string -> column) (l : list (nat * string))
    (X : DataFrame) m :
  m ∈ columns (foldl (fun X' jn => df_set X' jn.2 (g jn)) X l)
  <-> m ∈ columns X \/ m ∈ l.*2.
Proof.
  revert X. induction l as [|jn l IH]; intros X; simpl.
  - rewrite elem_of_nil. tauto.
  - rewrite IH, columns_df_set, elem_of_cons. tauto.
Qed.

Lemma columns_drop (X : DataFrame) (vars : list string) :
  columns (filter (fun nc => nc.1 ∉ vars) X)
  = filter (fun n => n ∉ vars) (columns X).
Proof.
  unfold columns. induction X as [|[n c] X IH]; [done|].
  rewrite fmap_cons, !filter_cons. simpl.
  destruct (decide (n ∉ vars)); [rewrite fmap_cons; simpl|]; by rewrite IH.
Qed.

(** The variables a successful [transform] encodes are columns of its
    input. *)
Lemma transform_variables_columns enc d X Y var :
  encoder_dict_ enc = Some d -> transform enc X = Ok Y ->
  var ∈ variables_ enc -> var ∈ columns X.
Proof.
  intros Hd HY Hvar.
  destruct (transform_blocks enc d X Y Hd HY) as (X1 & blocks & _ & _ & _ & HB).
  apply list_elem_of_lookup in Hvar as (k & Hk).
  destruct (Forall2_lookup_l _ _ _ _ _ HB Hk) as (B & _ & col & _ & Hcol & _).
  by eapply df_get_obj_columns.
Qed.

(** X13. The names [_add_new_feature_names] reports for the columns of the
    input are, as a set, exactly the column names of the frame [transform]
    returns; when no generated name clashes with another or with an input
    column, they are the same list, in the same order. *)
Theorem feature_names_out_match enc d X Y :
  encoder_dict_ enc = Some d -> transform enc X = Ok Y ->
  exists names out,
    _get_new_features_name d (variables_ enc) = Ok names /\
    _add_new_feature_names d (variables_ enc) (columns X) = Ok out /\
    (forall n, n ∈ columns Y <-> n ∈ out) /\
    (NoDup names -> (forall n, n ∈ names -> n ∉ columns X) -> columns Y = out).
Proof.
  intros Hd HY.
  destruct (transform_inv enc d X Y Hd HY)
    as (X1 & blocks & names & M & X2 & Hloop & Hnames & HM & Hset & Hdrop).
  destruct (transform_blocks enc d X Y Hd HY)
    as (X1' & blocks' & Hloop' & HF & _ & HB).
  assert (X1' = X1) as -> by congruence.
  exists names, (filter (fun f => f ∉ variables_ enc) (columns X ++ names)%list).
  split; [done|]. split.
  { unfold _add_new_feature_names. by rewrite Hnames, bind_Ok. }
  split.
  - intros n. apply df_loc_set_inv in Hset as [_ ->].
    unfold df_drop in Hdrop. destruct (decide _); [|done]. injection Hdrop as <-.
    rewrite columns_drop, !list_elem_of_filter, columns_foldl_df_set.
    by rewrite imap_pair_snd, (imputed_frame_columns _ _ _ HF), elem_of_app.
  - intros Hnd Hfresh.
    destruct (transform_frame_explicit enc d X Y names Hd Hnames Hnd Hfresh HY)
      as (_ & M' & _ & _ & ->).
    unfold columns at 1. rewrite fmap_app.
    change ((columns (filter (fun nc => nc.1 ∉ variables_ enc) X)
             ++ columns (imap (fun j n => (n, NumCol (matrix_column M' j))) names))%list
            = filter (fun f => f ∉ variables_ enc) (columns X ++ names)%list).
    rewrite columns_drop, filter_app.
    pose proof (columns_imap (fun j _ => NumCol (matrix_column M' j)) names) as Hnew.
    unfold columns at 2. rewrite Hnew. f_equal.
    symmetry. apply filter_all, Forall_forall. intros n Hn Hin.
    apply (Hfresh n Hn). by eapply transform_variables_columns.
Qed.

Lemma feature_names_out_match_witness :
  exists names out,
    _get_new_features_name {["var_A" := ["B"; "A"]]} ["var_A"] = Ok names /\
    _add_new_feature_names {["var_A" := ["B"; "A"]]} ["var_A"]
      (columns TestData.df_na) = Ok out /\
    (forall n, n ∈ columns TestData.df_na_encoded <-> n ∈ out) /\
    (NoDup names -> (forall n, n ∈ names -> n ∉ columns TestData.df_na) ->
     columns TestData.df_na_encoded = out).
Proof.
  apply (feature_names_out_match TestData.enc_ignore_fitted
           {["var_A" := ["B"; "A"]]} TestData.df_na TestData.df_na_encoded).
  - reflexivity.
  - vm_compute. reflexivity.
Defined.

Lemma gpm_fast_empty_l (c : string) :
  _gpm_fast "" c = if decide (c = "") then 1%Q else 0%Q.
Proof.
  unfold _gpm_fast. destruct (decide (c = "")) as [->|Hne].
  - by apply quick_ratio_Permutation.
  - apply quick_ratio_zero. split.
    + right. by rewrite list_ascii_of_string_nil.
    + intros a Ha. by apply elem_of_nil in Ha.
Qed.

(** X14. The cells of a similarity column, when no generated name
    clashes. The column [var_c] has one row per input row. A present value
    [x], whether or not it was seen by [fit], gives the score of [x]
    against [c], a number between 0 and 1. A missing value gives a missing
    score under [ignore]; under [impute] it gives 1 in the column of the
    empty-string category and 0 in every other column. *)
Theorem similarity_column_cells enc d X Y names (k j : nat) var vocab c col :
  encoder_dict_ enc = Some d ->
  _get_new_features_name d (variables_ enc) = Ok names ->
  NoDup names -> (forall n, n ∈ names -> n ∉ columns X) ->
  transform enc X = Ok Y ->
  variables_ enc !! k = Some var -> d !! var = Some vocab ->
  vocab !! j = Some c -> df_get_obj X var = Ok col ->
  exists cells,
    df_get Y (feature_name var c) = Ok (NumCol cells) /\
    length cells = length col /\
    (forall (i : nat) x, col !! i = Some (Some x) ->
       cells !! i = Some (Some (_gpm_fast x c)) /\
       (0 <= _gpm_fast x c)%Q /\ (_gpm_fast x c <= 1)%Q) /\
    (handle_missing enc = ignore ->
     forall i : nat, col !! i = Some None -> cells !! i = Some None) /\
    (handle_missing enc = impute ->
     forall i : nat, col !! i = Some None ->
       cells !! i = Some (Some (if decide (c = "") then 1%Q else 0%Q))).
Proof.
  intros Hd Hnames Hnd Hfresh HY Hk Hvocab Hj Hcol.
  destruct (transform_cells enc d X Y names k j var vocab c col
              Hd Hnames Hnd Hfresh HY Hk Hvocab Hj Hcol)
    as (cells & Hget & Hlen & Hcells).
  exists cells. split; [done|]. split; [done|]. split; [|split].
  - intros i x Hi. split; [|apply quick_ratio_bounds].
    apply (Hcells i (Some x)). unfold policy_col.
    destruct (decide (handle_missing enc = impute)); [|done].
    unfold fillna. by rewrite list_lookup_fmap, Hi.
  - intros Hhm i Hi. apply (Hcells i None). unfold policy_col.
    by rewrite decide_False by (by rewrite Hhm).
  - intros Hhm i Hi. rewrite (Hcells i (Some "")).
    + simpl. by rewrite gpm_fast_empty_l.
    + unfold policy_col. rewrite decide_True by done.
      unfold fillna. by rewrite list_lookup_fmap, Hi.
Qed.

Lemma similarity_column_cells_witness :
  exists cells,
    df_get [("num", NumCol [Some 1%Q; Some 2%Q; None; Some 4%Q]);
            ("var_A_B", NumCol [Some 1%Q; Some 0%Q; Some 0%Q; Some 1%Q]);
            ("var_A_nan", NumCol [Some 0%Q; Some 1%Q; Some 0%Q; Some 0%Q])]
           (feature_name "var_A" "") = Ok (NumCol cells) /\
    length cells = length [Some "B"; None; Some "A"; Some "B"] /\
    (forall (i : nat) x, [Some "B"; None; Some "A"; Some "B"] !! i = Some (Some x) ->
       cells !! i = Some (Some (_gpm_fast x "")) /\
       (0 <= _gpm_fast x "")%Q /\ (_gpm_fast x "" <= 1)%Q) /\
    (impute = ignore ->
     forall i : nat, [Some "B"; None; Some "A"; Some "B"] !! i = Some None ->
       cells !! i = Some None) /\
    (impute = impute ->
     forall i : nat, [Some "B"; None; Some "A"; Some "B"] !! i = Some None ->
       cells !! i = Some (Some (if decide ("" = "") then 1%Q else 0%Q))).
Proof.
  apply (similarity_column_cells
           (Encoder None impute ["var_A"] (Some {["var_A" := ["B"; ""]]}))
           {["var_A" := ["B"; ""]]} TestData.df_na
           [("num", NumCol [Some 1%Q; Some 2%Q; None; Some 4%Q]);
            ("var_A_B", NumCol [Some 1%Q; Some 0%Q; Some 0%Q; Some 1%Q]);
            ("var_A_nan", NumCol [Some 0%Q; Some 1%Q; Some 0%Q; Some 0%Q])]
           ["var_A_B"; "var_A_nan"] 0%nat 1%nat "var_A" ["B"; ""] ""
           [Some "B"; None; Some "A"; Some "B"]).
  - reflexivity.
  - vm_compute. reflexivity.
  - apply (bool_decide_unpack _). vm_compute. reflexivity.
  - intros n Hn. apply (bool_decide_unpack _).
    apply elem_of_cons in Hn as [->|Hn];
      [|apply list_elem_of_singleton in Hn as ->]; vm_compute; reflexivity.
  - vm_compute. reflexivity.
  - reflexivity.
  - reflexivity.
  - reflexivity.
  - reflexivity.
Defined.

Lemma fillna_no_missing {A} (v : A) (col : list (option A)) :
  None ∉ col -> fillna v col = col.
Proof.
  unfold fillna. induction col as [|[x|] col IH]; intros Hna; [done|..].
  - rewrite fmap_cons. simpl. f_equal. apply IH. intros Hin. apply Hna. by right.
  - destruct Hna. by left.
Qed.

Lemma df_get_obj_inv (X : DataFrame) var col :
  df_get_obj X var = Ok col -> df_get X var = Ok (ObjCol col).
Proof.
  unfold df_get_obj. destruct (df_get X var) as [[cells|cells]|]; [|done..].
  rewrite bind_Ok. by intros [= ->].
Qed.

Lemma df_set_same (X : DataFrame) var c : df_get X var = Ok c -> df_set X var c = X.
Proof.
  induction X as [|[n c0] X IH]; simpl; [done|].
  destruct (decide (n = var)); [by intros [= ->]|]. intros Hget. f_equal. auto.
Qed.

Lemma df_get_set_ne (X : DataFrame) var var' c :
  var' <> var -> df_get (df_set X var c) var' = df_get X var'.
Proof.
  intros Hne. induction X as [|[n c0] X IH]; simpl.
  - by rewrite decide_False.
  - destruct (decide (n = var)) as [->|Hn]; simpl.
    + by rewrite !decide_False.
    + by rewrite IH.
Qed.

Lemma fit_loop_ext f g (X : DataFrame) vars d0 :
  (forall var col, var ∈ vars -> df_get_obj X var = Ok col -> f col = g col) ->
  fit_loop f X vars d0 = fit_loop g X vars d0.
Proof.
  revert d0. induction vars as [|var rest IH]; intros d0 Hfg; [done|].
  simpl. destruct (df_get_obj X var) as [col|] eqn:Hcol; [|done].
  rewrite !bind_Ok, (Hfg var col); [|by left|done].
  apply IH. intros v c Hv. apply Hfg. by right.
Qed.

Lemma fit_loop_ok f (X : DataFrame) vars d0 :
  (forall var, var ∈ vars -> exists col, df_get_obj X var = Ok col) ->
  exists d, fit_loop f X vars d0 = Ok d.
Proof.
  revert d0. induction vars as [|var rest IH]; intros d0 Hcols; [by eexists|].
  simpl. destruct (Hcols var) as [col Hcol]; [by left|].
  rewrite Hcol, bind_Ok. apply IH. intros v Hv. apply Hcols. by right.
Qed.

(** The masked assignment of the [ignore] branch changes nothing: the rows
    of missing cells are all-NaN before it. *)
Lemma encode_column_policy hm hm' vocab (col : list (option string)) :
  encode_column hm vocab col = encode_column hm' vocab col.
Proof. by rewrite !encode_column_spec. Qed.

Lemma transform_loop_no_missing d vars (X : DataFrame) acc :
  (forall var, var ∈ vars -> exists col, df_get_obj X var = Ok col /\ None ∉ col) ->
  transform_loop impute d vars X acc = transform_loop ignore d vars X acc.
Proof.
  revert acc. induction vars as [|var rest IH]; intros acc Hcols; [done|].
  cbn [transform_loop]. destruct (Hcols var) as (col & Hcol & Hna); [by left|].
  rewrite Hcol, !bind_Ok.
  rewrite (decide_True (P := impute = impute)) by done.
  rewrite (decide_False (P := ignore = impute)) by done.
  rewrite (fillna_no_missing _ _ Hna), (df_set_same _ _ _ (df_get_obj_inv _ _ _ Hcol)).
  rewrite Hcol, !bind_Ok. destruct (dict_get d var) as [vocab|]; [|done].
  rewrite !bind_Ok, (encode_column_policy impute ignore).
  destruct (encode_column ignore vocab col) as [encoded|]; [|done].
  rewrite !bind_Ok. apply IH. intros v Hv. apply Hcols. by right.
Qed.

(** X15. When no selected column holds a missing value, the [impute] and
    [ignore] policies cannot be told apart: [fit] succeeds and learns the
    same vocabularies, and [transform] returns the same frame (or raises
    the same error). *)
Theorem policies_agree_without_missing `{ValueSort} top vars ed (X X' : DataFrame) :
  (forall var, var ∈ vars -> exists col, df_get_obj X var = Ok col /\ None ∉ col) ->
  (forall var, var ∈ vars -> exists col, df_get_obj X' var = Ok col /\ None ∉ col) ->
  (exists d,
     fit (Encoder top impute vars ed) X = Ok (Encoder top impute vars (Some d)) /\
     fit (Encoder top ignore vars ed) X = Ok (Encoder top ignore vars (Some d))) /\
  transform (Encoder top impute vars ed) X' = transform (Encoder top ignore vars ed) X'.
Proof.
  intros HX HX'. split.
  - destruct (fit_loop_ok (fun col => learn top col) X vars ∅) as [d Hd].
    { intros var Hvar. destruct (HX var Hvar) as (col & Hcol & _). eauto. }
    exists d. unfold fit. simpl. split; [|by rewrite Hd].
    rewrite (fit_loop_ext _ (fun col => learn top col)); [by rewrite Hd|].
    intros var col Hvar Hcol. destruct (HX var Hvar) as (col' & Hcol' & Hna).
    assert (col' = col) as -> by congruence. by rewrite fillna_no_missing.
  - unfold transform, check_is_fitted. cbn [encoder_dict_ handle_missing variables_].
    destruct ed as [d|]; [|done]. rewrite !bind_Ok.
    rewrite (decide_False (P := impute = error)) by done.
    rewrite (decide_False (P := ignore = error)) by done.
    by rewrite !bind_Ok, transform_loop_no_missing.
Qed.

Lemma policies_agree_without_missing_witness :
  (exists d,
     fit (H := first_seen_sort)
         (Encoder (Some 4%Z) impute ["var_A"; "var_B"] None) TestData.df_top
       = Ok (Encoder (Some 4%Z) impute ["var_A"; "var_B"] (Some d)) /\
     fit (H := first_seen_sort)
         (Encoder (Some 4%Z) ignore ["var_A"; "var_B"] None) TestData.df_top
       = Ok (Encoder (Some 4%Z) ignore ["var_A"; "var_B"] (Some d))) /\
  transform (Encoder (Some 4%Z) impute ["var_A"; "var_B"] None) TestData.df_top
  = transform (Encoder (Some 4%Z) ignore ["var_A"; "var_B"] None) TestData.df_top.
Proof.
  assert (forall var, var ∈ ["var_A"; "var_B"] ->
            exists col, df_get_obj TestData.df_top var = Ok col /\ None ∉ col)
    as Hcols.
  { intros var Hvar. apply elem_of_cons in Hvar as [->|Hvar];
      [|apply list_elem_of_singleton in Hvar as ->].
    all: eexists; split; [reflexivity|].
    all: apply (bool_decide_unpack _); vm_compute; reflexivity. }
  exact (policies_agree_without_missing (H := first_seen_sort)
           (Some 4%Z) ["var_A"; "var_B"] None
           TestData.df_top TestData.df_top Hcols Hcols).
Defined.

Lemma df_get_obj_set_ne (X : DataFrame) var var' c :
  var' <> var -> df_get_obj (df_set X var c) var' = df_get_obj X var'.
Proof. intros Hne. unfold df_get_obj. by rewrite df_get_set_ne. Qed.

Lemma policy_col_nil hm (col : list (option string)) :
  col <> [] -> policy_col hm col <> [].
Proof.
  intros Hne Hnil. apply Hne, length_zero_iff_nil.
  by rewrite <- (length_policy_col hm), Hnil.
Qed.

Lemma transform_loop_ok hm d vars (X1 : DataFrame) acc :
  (forall var, var ∈ vars ->
     (exists col, df_get_obj X1 var = Ok col /\ col <> []) /\
     (exists vocab, d !! var = Some vocab /\ vocab <> [])) ->
  exists X2 blocks, transform_loop hm d vars X1 acc = Ok (X2, blocks).
Proof.
  revert X1 acc. induction vars as [|var rest IH]; intros X1 acc Hcols.
  { by eexists _, _. }
  cbn [transform_loop].
  destruct (Hcols var) as [(col0 & Hcol0 & Hne) (vocab & Hvocab & Hvne)];
    [by left|].
  rewrite Hcol0, bind_Ok.
  set (X1' := if decide (hm = impute)
              then df_set X1 var (ObjCol (fillna "" col0)) else X1).
  assert (df_get_obj X1' var = Ok (policy_col hm col0)) as Hcol.
  { subst X1'. unfold policy_col. destruct (decide (hm = impute)); [|done].
    by eapply df_get_obj_set. }
  rewrite Hcol, bind_Ok. unfold dict_get at 1. rewrite Hvocab, bind_Ok.
  rewrite encode_column_rows, bind_Ok by ((by apply policy_col_nil) || by left).
  apply IH. intros v Hv. destruct (Hcols v) as [(col & Hget & Hcne) Hsome]; [by right|].
  split; [|done]. subst X1'. destruct (decide (hm = impute)); [|by eauto].
  destruct (decide (v = var)) as [->|Hvne'].
  - exists (fillna "" col0). split; [by eapply df_get_obj_set|].
    intros Hnil. apply Hne, length_zero_iff_nil.
    apply (f_equal length) in Hnil. unfold fillna in Hnil.
    by rewrite length_fmap in Hnil.
  - exists col. by rewrite df_get_obj_set_ne.
Qed.

Lemma new_features_ok (d : gmap string (list string)) vars :
  (forall var, var ∈ vars -> is_Some (d !! var)) ->
  exists names, _get_new_features_name d vars = Ok names.
Proof.
  induction vars as [|var rest IH]; intros Hd; [by eexists|].
  simpl. destruct (Hd var) as [vocab Hvocab]; [by left|].
  destruct IH as [names Hnames]; [intros v Hv; apply Hd; by right|].
  unfold dict_get. rewrite Hvocab, bind_Ok, Hnames, bind_Ok. by eexists.
Qed.

Lemma np_hstack_ok (blocks : list matrix) (n : nat) :
  blocks <> [] -> Forall (fun B => length B = n) blocks ->
  exists M, np_hstack blocks = Ok M.
Proof.
  destruct blocks as [|B rest]; [done|]. intros _ [HB Hrest]%Forall_cons.
  simpl. rewrite (proj2 (forallb_forall _ _)); [by eexists|].
  intros B' HB'%list_elem_of_In. rewrite Forall_forall in Hrest.
  rewrite (Hrest B' HB'), HB. apply Nat.eqb_refl.
Qed.

Lemma zip_with_app_row_length {A} (B0 B : list (list A)) (w0 w : nat) :
  Forall (fun r => length r = w0) B0 -> Forall (fun r => length r = w) B ->
  Forall (fun r => length r = (w0 + w)%nat) (zip_with app B0 B).
Proof.
  intros H0. revert B. induction H0 as [|r0 B0 Hr0 _ IH]; intros B HB; [constructor|].
  destruct HB as [|r B Hr HB]; [constructor|]. simpl. constructor; [|by apply IH].
  rewrite length_app. lia.
Qed.

Lemma foldl_zip_app_row_length {A} (rest : list (list (list A)))
    (B0 : list (list A)) (ws : list nat) (w0 : nat) :
  Forall (fun r => length r = w0) B0 ->
  Forall2 (fun B w => Forall (fun r => length r = w) B) rest ws ->
  Forall (fun r => length r = (w0 + sum_list ws)%nat) (foldl (zip_with app) B0 rest).
Proof.
  intros H0 Hrest. revert B0 w0 H0.
  induction Hrest as [|B w rest ws HB _ IH]; intros B0 w0 H0; simpl.
  - by rewrite Nat.add_0_r.
  - rewrite Nat.add_assoc. apply IH. by apply zip_with_app_row_length.
Qed.

Lemma np_hstack_row_length (blocks : list matrix) (ws : list nat) (M : matrix) :
  np_hstack blocks = Ok M ->
  Forall2 (fun B w => Forall (fun r => length r = w) B) blocks ws ->
  Forall (fun r => length r = sum_list ws) M.
Proof.
  unfold np_hstack. destruct blocks as [|B0 rest]; [done|].
  destruct (forallb _ rest); [|done]. intros [= <-] Hblocks.
  destruct ws as [|w0 ws]; [by apply Forall2_cons_nil_inv in Hblocks|].
  apply Forall2_cons in Hblocks as [H0 Hrest]. simpl.
  by apply foldl_zip_app_row_length.
Qed.

Lemma df_loc_set_ok (X : DataFrame) names (M : matrix) :
  NoDup names -> Forall (fun r => length r = length names) M ->
  exists X2, df_loc_set X names M = Ok X2 /\
    forall m, m ∈ columns X -> m ∈ columns X2.
Proof.
  intros Hnd Hrows. unfold df_loc_set. rewrite decide_True by done.
  rewrite (proj2 (forallb_forall _ _)).
  - eexists. split; [done|]. intros m Hm. apply columns_foldl_df_set. by left.
  - intros r Hr%list_elem_of_In. rewrite Forall_forall in Hrows.
    rewrite (Hrows r Hr). apply Nat.eqb_refl.
Qed.

Lemma df_loc_set_repeated (X : DataFrame) names (M : matrix) :
  ~ NoDup names -> df_loc_set X names M = Raise ValueError.
Proof. intros Hdup. unfold df_loc_set. by rewrite decide_False. Qed.

Lemma head_nil {A} (top : option Z) (l : list A) :
  (forall k, top = Some k -> (0 < k)%Z) -> l <> [] -> head top l <> [].
Proof.
  intros Htop Hne. unfold head. destruct top as [k|]; [|done].
  specialize (Htop k eq_refl). rewrite (proj2 (Z.leb_le 0 k)) by lia.
  destruct l as [|x l]; [done|]. destruct (Z.to_nat k) eqn:Hk; [lia|done].
Qed.

Lemma elem_of_dropna {A} (x : A) (s : list (option A)) :
  x ∈ dropna s <-> Some x ∈ s.
Proof.
  unfold dropna. rewrite list_elem_of_omap. split.
  - by intros (? & Hin & ->).
  - intros Hin. by exists (Some x).
Qed.

(** X16. Under [impute] and under [ignore], for [top_categories] absent
    or positive, when every selected variable is a categorical column of
    the training frame with at least one present value and the selected
    columns of the frame to transform have the same positive number of
    rows: [fit] returns, every learned vocabulary is non-empty, and
    [transform] returns a frame if the generated names are pairwise
    different and raises a ValueError if two of them coincide. *)
Theorem fit_transform_succeeds `{ValueSort} top hm vars ed (X X' : DataFrame)
    (n : nat) :
  sorts_by_count ->
  hm <> error -> vars <> [] ->
  (forall k, top = Some k -> (0 < k)%Z) ->
  (forall var, var ∈ vars ->
     exists col x, df_get_obj X var = Ok col /\ Some x ∈ col) ->
  (0 < n)%nat ->
  (forall var, var ∈ vars ->
     exists col, df_get_obj X' var = Ok col /\ length col = n) ->
  exists d names,
    fit (Encoder top hm vars ed) X = Ok (Encoder top hm vars (Some d)) /\
    (forall var, var ∈ vars -> exists vocab, d !! var = Some vocab /\ vocab <> []) /\
    _get_new_features_name d vars = Ok names /\
    (NoDup names ->
     exists Y, transform (Encoder top hm vars (Some d)) X' = Ok Y) /\
    (~ NoDup names ->
     transform (Encoder top hm vars (Some d)) X' = Raise ValueError).
Proof.
  intros Hsort Hhm Hvars Htop HX Hn HX'.
  assert (exists d, fit (Encoder top hm vars ed) X
                    = Ok (Encoder top hm vars (Some d))) as [d Hfit].
  { unfold fit. cbn [top_categories handle_missing variables_].
    destruct hm; [done|..].
    - destruct (fit_loop_ok (fun col => learn top (fillna "" col)) X vars ∅)
        as [d Hd]; [|exists d; by rewrite Hd].
      intros var Hvar. destruct (HX var Hvar) as (col & _ & Hcol & _). eauto.
    - destruct (fit_loop_ok (fun col => learn top col) X vars ∅)
        as [d Hd]; [|exists d; by rewrite Hd].
      intros var Hvar. destruct (HX var Hvar) as (col & _ & Hcol & _). eauto. }
  assert (forall var, var ∈ vars ->
            exists vocab, d !! var = Some vocab /\ vocab <> []) as Hvocab.
  { intros var Hvar.
    destruct (fit_learns _ X _ var Hfit Hvar) as (d' & col & Hd' & Hcol & Hlearn).
    injection Hd' as <-. cbn [top_categories handle_missing] in Hlearn.
    eexists. split; [exact Hlearn|]. apply head_nil; [done|].
    destruct (HX var Hvar) as (col' & x & Hcol' & Hx).
    assert (col' = col) as -> by congruence.
    intros Hnil.
    assert (x ∈ index_tolist (value_counts
              match hm with impute => fillna "" col | _ => col end)) as Hin.
    { rewrite (value_counts_perm _ Hsort).
      apply elem_of_unique, elem_of_dropna.
      destruct hm; [done| |done].
      unfold fillna. apply list_elem_of_fmap. by exists (Some x). }
    rewrite Hnil in Hin. by apply elem_of_nil in Hin. }
  exists d.
  destruct (transform_loop_ok hm d vars X' []) as (X1 & blocks & Hloop).
  { intros var Hvar. destruct (HX' var Hvar) as (col & Hcol & Hlen).
    split; [|by apply Hvocab]. exists col. split; [done|].
    intros ->. simpl in Hlen. lia. }
  destruct (transform_loop_spec hm d vars X' vars X' [] X1 blocks Hloop)
    as (HF & _ & new & Hnew & HB);
    [done|apply imputed_frame_refl|done|].
  simpl in Hnew. subst new.
  destruct (new_features_ok d vars) as [names Hnames].
  { intros var Hvar. destruct (Hvocab var Hvar) as (vocab & Hd & _). by eexists. }
  exists names. split; [done|]. split; [done|]. split; [done|].
  assert (Forall (fun B : matrix => length B = n) blocks) as Hlen.
  { apply Forall_forall. intros B HB'.
    apply list_elem_of_lookup in HB' as (k & Hk).
    destruct (Forall2_lookup_r _ _ _ _ _ HB Hk) as (var & Hvar & col & vocab & Hcol & _ & _ & ->).
    destruct (HX' var) as (col' & Hcol' & Hcl); [by eapply list_elem_of_lookup_2|].
    assert (col' = col) as -> by congruence.
    by rewrite length_fmap, length_policy_col. }
  destruct (np_hstack_ok blocks n) as [M HM]; [|done|].
  { intros ->. apply Forall2_nil_inv_r in HB. done. }
  assert (Forall (fun r : row => length r = length names) M) as Hrows.
  { rewrite (new_features_length d vars names Hnames).
    apply (np_hstack_row_length blocks _ M HM).
    apply Forall2_fmap_r, Forall2_flip. eapply Forall2_impl; [exact HB|].
    intros var B (col & vocab & _ & _ & Hd & ->). rewrite Hd. simpl.
    apply Forall_forall. intros r (cell & -> & _)%list_elem_of_fmap.
    apply length_similarity_row. }
  assert (transform (Encoder top hm vars (Some d)) X'
          = (X2 ← df_loc_set X1 names M; df_drop X2 vars)) as Htr.
  { unfold transform, check_is_fitted.
    cbn [encoder_dict_ handle_missing variables_].
    rewrite bind_Ok, (decide_False (P := hm = error)) by done.
    by rewrite bind_Ok, Hloop, bind_Ok, Hnames, bind_Ok, HM, bind_Ok. }
  rewrite Htr. split.
  - intros Hnd.
    destruct (df_loc_set_ok X1 names M Hnd Hrows) as (X2 & Hset & Hcols).
    exists (filter (fun nc => nc.1 ∉ vars) X2).
    rewrite Hset, bind_Ok. unfold df_drop. rewrite decide_True; [done|].
    intros var Hvar. apply Hcols. rewrite (imputed_frame_columns _ _ _ HF).
    destruct (HX' var Hvar) as (col & Hcol & _). by eapply df_get_obj_columns.
  - intros Hdup. by rewrite df_loc_set_repeated.
Qed.

Lemma fit_transform_succeeds_witness :
  exists d names,
    fit (H := first_seen_sort) (Encoder None ignore ["var_A"] None) TestData.df_na
      = Ok (Encoder None ignore ["var_A"] (Some d)) /\
    (forall var, var ∈ ["var_A"] -> exists vocab, d !! var = Some vocab /\ vocab <> []) /\
    _get_new_features_name d ["var_A"] = Ok names /\
    (NoDup names ->
     exists Y, transform (Encoder None ignore ["var_A"] (Some d)) TestData.df_na
               = Ok Y) /\
    (~ NoDup names ->
     transform (Encoder None ignore ["var_A"] (Some d)) TestData.df_na
     = Raise ValueError).
Proof.
  apply (fit_transform_succeeds (H := first_seen_sort) None ignore ["var_A"] None
           TestData.df_na TestData.df_na 4%nat).
  - apply first_seen_sort_ok.
  - done.
  - done.
  - intros k Hk. discriminate Hk.
  - intros var Hvar. apply list_elem_of_singleton in Hvar as ->.
    exists [Some "B"; None; Some "A"; Some "B"], "B".
    split; [reflexivity|]. by left.
  - lia.
  - intros var Hvar. apply list_elem_of_singleton in Hvar as ->.
    exists [Some "B"; None; Some "A"; Some "B"]. split; reflexivity.
Defined.

(** X17. After [fit] the keys of [encoder_dict_] are exactly the selected
    variables, so [_get_new_features_name] cannot fail with a KeyError on
    the fitted encoder; it returns one name per vocabulary entry. *)
Theorem fitted_feature_names `{ValueSort} enc X enc' :
  fit enc X = Ok enc' ->
  exists d names,
    encoder_dict_ enc' = Some d /\
    (forall var, is_Some (d !! var) <-> var ∈ variables_ enc) /\
    _get_new_features_name d (variables_ enc') = Ok names /\
    length names = sum_list ((fun var => length (default [] (d !! var)))
                               <$> variables_ enc').
Proof.
  intros Hfit.
  destruct (fit_preserves enc X enc' Hfit) as (_ & Hvars & _ & [d Hd]).
  assert (forall var, is_Some (d !! var) <-> var ∈ variables_ enc) as Hkeys.
  { unfold fit in Hfit.
    assert (exists f, fit_loop f X (variables_ enc) ∅ = Ok d) as [f Hloop].
    { destruct (handle_missing enc);
        [destruct (_check_contains_na X (variables_ enc)); [|done];
         rewrite bind_Ok in Hfit|..].
      all: destruct (fit_loop _ X (variables_ enc) ∅) as [d'|] eqn:Hloop; [|done].
      all: injection Hfit as <-; simpl in Hd; injection Hd as ->; by eexists. }
    intros var. pose proof (encoder_fit_loop_spec _ _ _ _ _ Hloop var) as [Hin Hout].
    destruct (decide (var ∈ variables_ enc)) as [Hvar|Hvar].
    - destruct (Hin Hvar) as (col & _ & ->). split; [done|by eexists].
    - rewrite (Hout Hvar), lookup_empty. split; [by intros [? ?]|done]. }
  destruct (new_features_ok d (variables_ enc')) as [names Hnames].
  { intros var Hvar. apply Hkeys. by rewrite <- Hvars. }
  exists d, names. split; [done|]. split; [done|]. split; [done|].
  by apply new_features_length.
Qed.

Lemma fitted_feature_names_witness :
  exists d names,
    encoder_dict_ TestData.enc_top_fitted = Some d /\
    (forall var, is_Some (d !! var) <-> var ∈ variables_ TestData.enc_top) /\
    _get_new_features_name d (variables_ TestData.enc_top_fitted) = Ok names /\
    length names = sum_list ((fun var => length (default [] (d !! var)))
                               <$> variables_ TestData.enc_top_fitted).
Proof.
  apply (fitted_feature_names (H := first_seen_sort)
           TestData.enc_top TestData.df_top TestData.enc_top_fitted).
  vm_compute. reflexivity.
Defined.

End EncoderEdges.
